(** * inputiter: the iterators of cmd/criticality_score/inputiter/iterator.go

    A shallow embedding of the two implementations of [Iter[T]]:
    [sliceIter[T]], which walks a Go slice with an [int] cursor, and
    [scannerIter], which hands every call to a [bufio.Scanner] and to the
    [io.Closer] it was built on. The program comes first, what is proved
    of it second. *)

From stdpp Require Import base numbers list.
From Stdlib Require Import ZArith Lia Init.Byte.
From Stdlib Require Strings.Byte Strings.String.

Local Open Scope Z_scope.

(** * The program *)

(** ** Go's [int] and slice indexing *)

Module GoInt.

(** [int] on the 64-bit targets the tool is built for. *)
Definition intSize : Z := 64.
Definition maxInt : Z := 2 ^ (intSize - 1) - 1.
Definition minInt : Z := - 2 ^ (intSize - 1).

Definition is_int (z : Z) : Prop := minInt <= z <= maxInt.

(** Signed arithmetic wraps around silently. *)
Definition wrap (z : Z) : Z := (z - minInt) `mod` 2 ^ intSize + minInt.

(** [len(s)] of a slice. *)
Definition len {T} (s : list T) : Z := Z.of_nat (length s).

(** [s[k]]: a run-time panic (here [None]) unless [0 <= k < len(s)]. *)
Definition index {T} (s : list T) (k : Z) : option T :=
  if (0 <=? k) && (k <? len s) then s !! Z.to_nat k else None.

(** A slice whose length leaves room for one more: every slice of a type
    with non-zero size is one, since its elements have to fit in memory. *)
Definition fits {T} (s : list T) : Prop := len s < maxInt.

(** [x != nil] for a value that may be nil. *)
Definition not_nil {A} (x : option A) : bool :=
  match x with Some _ => true | None => false end.

End GoInt.

Import GoInt.

(** ** Errors *)

(** The [error] values that can reach a caller of the package; [nil] is
    [None] of [option error]. *)
Inductive error : Type :=
| EOF                 (* io.EOF *)
| ErrNoProgress       (* io.ErrNoProgress *)
| ErrTooLong          (* bufio.ErrTooLong *)
| ErrNegativeAdvance  (* bufio.ErrNegativeAdvance *)
| ErrAdvanceTooFar    (* bufio.ErrAdvanceTooFar *)
| ErrBadReadCount     (* bufio.ErrBadReadCount *)
| ErrFinalToken       (* bufio.ErrFinalToken *)
| ErrOther (code : nat). (* any other error of the resource *)

(** [a == b] on errors. *)
Definition error_eqb (a b : error) : bool :=
  match a, b with
  | EOF, EOF | ErrNoProgress, ErrNoProgress | ErrTooLong, ErrTooLong
  | ErrNegativeAdvance, ErrNegativeAdvance | ErrAdvanceTooFar, ErrAdvanceTooFar
  | ErrBadReadCount, ErrBadReadCount | ErrFinalToken, ErrFinalToken => true
  | ErrOther m, ErrOther n => Nat.eqb m n
  | _, _ => false
  end.

(** ** sliceIter *)

Module sliceIter.

(** [type sliceIter[T any] struct { values []T; next int }] *)
Record t (T : Type) : Type := mk { values : list T; next : Z }.
Arguments mk {T} _ _.
Arguments values {T} _.
Arguments next {T} _.

Section Methods.
Context {T : Type}.

(** Modelled from the spec: the constructor is not among the sources;
    "Construction from a list: ... returns a Sequence Producer with cursor
    at 0", which is also what a struct literal that names only [values]
    gives. *)
Definition new (vs : list T) : t T := mk vs 0.

(** The index [Item] reads: [i.next-1]. *)
Definition Item_index (i : t T) : Z := wrap (next i - 1).

(** [func (i *sliceIter[T]) Item() T { return i.values[i.next-1] }] *)
Definition Item (i : t T) : option T := index (values i) (Item_index i).

(** [func (i *sliceIter[T]) Next() bool]:
    [if i.next <= len(i.values) { i.next++ }; return i.next <= len(i.values)] *)
Definition Next (i : t T) : bool * t T :=
  let i' := if next i <=? len (values i)
            then mk (values i) (wrap (next i + 1))
            else i in
  (next i' <=? len (values i'), i').

(** [func (i *sliceIter[T]) Err() error { return nil }] *)
Definition Err (i : t T) : option error := None.

(** [func (i *sliceIter[T]) Close() error { return nil }] *)
Definition Close (i : t T) : option error := None.

(** *** Consumers *)

(** What a consumer can do with the iterator, and what it gets back. *)
Inductive call : Type := CallItem | CallNext | CallErr | CallClose.

Inductive reply : Type :=
| RItem (x : option T)      (* [None]: the index was out of range *)
| RNext (b : bool)
| RErr (e : option error)
| RClose (e : option error).

Definition exec (c : call) (i : t T) : reply * t T :=
  match c with
  | CallItem => (RItem (Item i), i)
  | CallNext => let (b, i') := Next i in (RNext b, i')
  | CallErr => (RErr (Err i), i)
  | CallClose => (RClose (Close i), i)
  end.

(** A session: the calls in order, each on the state the one before left
    (a recovered panic of [Item] leaves the state as it was). *)
Fixpoint play (cs : list call) (i : t T) : list reply * t T :=
  match cs with
  | [] => ([], i)
  | c :: cs' =>
      let (r, i') := exec c i in
      let (rs, i'') := play cs' i' in
      (r :: rs, i'')
  end.

Definition run (cs : list call) (i : t T) : t T := (play cs i).2.
Definition replies (cs : list call) (i : t T) : list reply := (play cs i).1.

(** How many of the calls are [Next()]. *)
Fixpoint nexts (cs : list call) : nat :=
  match cs with
  | [] => 0
  | CallNext :: cs' => S (nexts cs')
  | _ :: cs' => nexts cs'
  end.

(** What the [Next()] calls of a session returned, in order. *)
Definition next_replies (rs : list reply) : list bool :=
  omap (fun r => match r with RNext b => Some b | _ => None end) rs.

(** The states a consumer can reach. *)
Definition in_range (i : t T) : Prop := 0 <= next i <= len (values i) + 1.

(** Items not handed out yet. *)
Definition remaining (i : t T) : nat := Z.to_nat (len (values i) - next i).

(** The loop the interface is made for,
    [for i.Next() { items = append(items, i.Item()) }], with at most
    [rounds] calls of [Next()]: the items it appends and the state it
    leaves; [None] when [rounds] calls were not enough to end it. *)
Fixpoint collect (rounds : nat) (i : t T) : option (list (option T) * t T) :=
  match rounds with
  | O => None
  | S rounds' =>
      let (more, i') := Next i in
      if more then
        match collect rounds' i' with
        | Some (items, i'') => Some (Item i' :: items, i'')
        | None => None
        end
      else Some ([], i')
  end.

(** The replies of [Err()] and [Close()] in a session. *)
Definition error_replies (rs : list reply) : list (option error) :=
  omap (fun r => match r with RErr e | RClose e => Some e | _ => None end) rs.

End Methods.

(** A two-element list and a session that reads both items and runs on. *)
Definition two : list nat := [10; 20]%nat.
Definition session : list call :=
  [CallItem; CallNext; CallItem; CallErr; CallNext; CallItem; CallNext;
   CallItem; CallNext; CallClose].

End sliceIter.

(** ** io *)
Module io.

(** [io.ReadCloser]: [Read(p)] with [len(p) = n] returns the bytes it
    stored in [p] and an error; [Close()] returns an error. Both may change
    the resource. *)
Class ReadCloser (R : Type) : Type := {
  Read : R -> Z -> list byte * option error * R;
  Close : R -> option error * R
}.

End io.

(** ** bufio.Scanner *)

(** Modelled from the spec: [bufio] is Go's standard library, which the
    repository imports and does not contain; it is the "buffered,
    line-oriented splitter" of the spec with its "default buffering
    behavior". The definitions follow the library's [scan.go], function by
    function, so that the splitter does here what it does under the
    program. *)
Module bufio.

Definition MaxScanTokenSize : Z := 64 * 1024.
Definition startBufSize : Z := 4096.
Definition maxConsecutiveEmptyReads : nat := 100.

(** [type SplitFunc func(data []byte, atEOF bool) (advance int, token []byte, err error)];
    a nil token is [None], an empty one [Some []]. *)
Definition SplitFunc : Type :=
  list byte -> bool -> Z * option (list byte) * option error.

(** [bytes.IndexByte]. *)
Fixpoint IndexByte (b : list byte) (c : byte) : Z :=
  match b with
  | [] => -1
  | x :: b' =>
      if Byte.eqb x c then 0
      else let i := IndexByte b' c in if i <? 0 then -1 else i + 1
  end.

Definition dropCR (data : list byte) : list byte :=
  match last data with
  | Some x0d => take (length data - 1) data
  | _ => data
  end.

Definition ScanLines : SplitFunc := fun data atEOF =>
  if atEOF && (len data =? 0) then (0, None, None)
  else
    let i := IndexByte data x0a in
    if 0 <=? i then (i + 1, Some (dropCR (take (Z.to_nat i) data)), None)
    else if atEOF then (len data, Some (dropCR data), None)
    else (0, None, None).

(** [type Scanner struct]. The buffer is kept as its length [buf] and the
    bytes in use, [data = buf[start:end]]; the reader [r] is the resource
    the caller passes to [Scan]. *)
Record Scanner : Type := mkScanner {
  split : SplitFunc;
  maxTokenSize : Z;
  token : option (list byte);
  buf : Z;
  start : Z;
  data : list byte;
  err : option error;
  empties : Z;
  scanCalled : bool;
  done : bool
}.

Definition end_ (s : Scanner) : Z := start s + len (data s).

Definition NewScanner : Scanner :=
  mkScanner ScanLines MaxScanTokenSize None 0 0 [] None 0 false false.

Definition set_token (t : option (list byte)) (s : Scanner) : Scanner :=
  mkScanner (split s) (maxTokenSize s) t (buf s) (start s) (data s) (err s)
    (empties s) (scanCalled s) (done s).
Definition set_window (b st : Z) (d : list byte) (s : Scanner) : Scanner :=
  mkScanner (split s) (maxTokenSize s) (token s) b st d (err s)
    (empties s) (scanCalled s) (done s).
Definition set_err (e : option error) (s : Scanner) : Scanner :=
  mkScanner (split s) (maxTokenSize s) (token s) (buf s) (start s) (data s) e
    (empties s) (scanCalled s) (done s).
Definition set_empties (n : Z) (s : Scanner) : Scanner :=
  mkScanner (split s) (maxTokenSize s) (token s) (buf s) (start s) (data s)
    (err s) n (scanCalled s) (done s).
Definition set_scanCalled (b : bool) (s : Scanner) : Scanner :=
  mkScanner (split s) (maxTokenSize s) (token s) (buf s) (start s) (data s)
    (err s) (empties s) b (done s).
Definition set_done (b : bool) (s : Scanner) : Scanner :=
  mkScanner (split s) (maxTokenSize s) (token s) (buf s) (start s) (data s)
    (err s) (empties s) (scanCalled s) b.

(** [func (s *Scanner) Text() string { return string(s.token) }] *)
Definition Text (s : Scanner) : String.string :=
  String.string_of_list_byte (default [] (token s)).

(** [func (s *Scanner) Err() error]: [io.EOF] is reported as nil. *)
Definition Err (s : Scanner) : option error :=
  match err s with
  | Some EOF => None
  | e => e
  end.

(** [func (s *Scanner) setErr(err error)]: the first error other than
    [io.EOF] stays. *)
Definition setErr (e : error) (s : Scanner) : Scanner :=
  match err s with
  | None | Some EOF => set_err (Some e) s
  | Some _ => s
  end.

(** [func (s *Scanner) advance(n int) bool] *)
Definition advance (n : Z) (s : Scanner) : bool * Scanner :=
  if n <? 0 then (false, setErr ErrNegativeAdvance s)
  else if end_ s - start s <? n then (false, setErr ErrAdvanceTooFar s)
  else (true, set_window (buf s) (start s + n) (drop (Z.to_nat n) (data s)) s).

(** How a call of [Scan] ends. *)
Inductive exit : Type :=
| Return (b : bool)
| Panic.   (* "bufio.Scan: too many empty tokens without progressing" *)

Section Scan.
Context {R : Type} `{io.ReadCloser R}.

(** The inner loop of [Scan], which reads into [buf[end:len(buf)]] until
    a read brings data or an error; [k] is how many more empty reads it
    puts up with. *)
Fixpoint read (k : nat) (r : R) (s : Scanner) : Scanner * R :=
  let '(p, e, r') := io.Read r (buf s - end_ s) in
  if buf s - end_ s <? len p then (setErr ErrBadReadCount s, r')
  else
    let s := set_window (buf s) (start s) (data s ++ p) s in
    match e with
    | Some e => (setErr e s, r')
    | None =>
        if 0 <? len p then (set_empties 0 s, r')
        else match k with
             | O => (setErr ErrNoProgress s, r')
             | S k' => read k' r' s
             end
    end.

Inductive turn : Type :=
| Exit (e : exit) (s : Scanner) (r : R)
| Again (s : Scanner) (r : R).

(** Making room and reading: the second half of the body of the loop. *)
Definition fill (r : R) (s : Scanner) : turn :=
  if not_nil (err s) then Exit (Return false) (set_window (buf s) 0 [] s) r
  else
    let s :=
      if (0 <? start s) && ((end_ s =? buf s) || (buf s / 2 <? start s))
      then set_window (buf s) 0 (data s) s
      else s in
    if end_ s =? buf s then
      if (maxTokenSize s <=? buf s) || (maxInt / 2 <? buf s)
      then Exit (Return false) (setErr ErrTooLong s) r
      else
        let newSize := buf s * 2 in
        let newSize := if newSize =? 0 then startBufSize else newSize in
        let newSize := Z.min newSize (maxTokenSize s) in
        let s := set_window newSize 0 (data s) s in
        let (s, r) := read maxConsecutiveEmptyReads r s in Again s r
    else
      let (s, r) := read maxConsecutiveEmptyReads r s in Again s r.

(** One turn of the loop of [Scan]. *)
Definition turn_of (r : R) (s : Scanner) : turn :=
  if (start s <? end_ s) || not_nil (err s) then
    let '(adv, tok, e) := split s (data s) (not_nil (err s)) in
    match e with
    | Some e =>
        if error_eqb e ErrFinalToken
        then Exit (Return (not_nil tok)) (set_done true (set_token tok s)) r
        else Exit (Return false) (setErr e s) r
    | None =>
        let (ok, s) := advance adv s in
        if negb ok then Exit (Return false) s r
        else
          let s := set_token tok s in
          if not_nil tok then
            if negb (not_nil (err s)) || (0 <? adv)
            then Exit (Return true) (set_empties 0 s) r
            else
              let s := set_empties (empties s + 1) s in
              if Z.of_nat maxConsecutiveEmptyReads <? empties s
              then Exit Panic s r
              else Exit (Return true) s r
          else fill r s
    end
  else fill r s.

Fixpoint loop (fuel : nat) (r : R) (s : Scanner) : option (exit * Scanner * R) :=
  match fuel with
  | O => None
  | S fuel' =>
      match turn_of r s with
      | Exit e s' r' => Some (e, s', r')
      | Again s' r' => loop fuel' r' s'
      end
  end.

(** [func (s *Scanner) Scan() bool]; [None] when [fuel] turns of the loop
    were not enough. *)
Definition Scan (fuel : nat) (r : R) (s : Scanner) : option (exit * Scanner * R) :=
  if done s then Some (Return false, s, r)
  else loop fuel r (set_scanCalled true s).

End Scan.

(** The scanners [NewScanner] gives rise to. *)
Record wf (s : Scanner) : Prop := Wf {
  wf_split : split s = ScanLines;
  wf_max : maxTokenSize s = MaxScanTokenSize;
  wf_start : 0 <= start s;
  wf_end : end_ s <= buf s;
  wf_buf : buf s <= MaxScanTokenSize;
  wf_done : done s = false
}.

(** Projections of updated scanners, and nothing else, are computed. *)
Ltac proj :=
  cbn [split maxTokenSize token buf start data err empties scanCalled done
       set_token set_window set_err set_empties set_scanCalled set_done
       not_nil negb orb andb fst snd].

End bufio.

(** ** A resource to iterate over *)
Module file.

(** An open file as its reader sees it: what the reads to come will find,
    chunk by chunk (an empty chunk is a read that returns no data and no
    error), the error that ends the reading ([io.EOF], or a failure), what
    [Close] will return and how often it was called. *)
Record t : Type := mk {
  pending : list (list byte);
  ending : error;
  close_error : option error;
  closes : nat
}.

Definition Read (f : t) (n : Z) : list byte * option error * t :=
  match pending f with
  | [] => ([], Some (ending f), f)
  | chunk :: rest =>
      if len chunk <=? n
      then (chunk, None, mk rest (ending f) (close_error f) (closes f))
      else (take (Z.to_nat n) chunk, None,
            mk (drop (Z.to_nat n) chunk :: rest) (ending f) (close_error f) (closes f))
  end.

Definition Close (f : t) : option error * t :=
  (close_error f, mk (pending f) (ending f) (close_error f) (S (closes f))).

#[global] Instance ReadCloser : io.ReadCloser t := {| io.Read := Read; io.Close := Close |}.

(** All the ways to cut a content into the non-empty pieces that
    successive reads may bring. *)
Fixpoint cuts (content : list byte) : list (list (list byte)) :=
  match content with
  | [] => [[]]
  | x :: rest =>
      match rest with
      | [] => [[[x]]]
      | _ :: _ =>
          flat_map (fun pieces =>
                      match pieces with
                      | [] => []
                      | piece :: pieces' =>
                          [[x] :: piece :: pieces'; (x :: piece) :: pieces']
                      end)
                   (cuts rest)
      end
  end.

(** A file with the given content, read in one piece. *)
Definition of_bytes (content : list byte) : t := mk [content] EOF None 0.

(** Every read of the file brings data until the content is used up. *)
Definition lively (f : t) : Prop :=
  Forall (fun chunk => chunk <> []) (pending f).

End file.

(** ** scannerIter *)
Module scannerIter.

Section Methods.
Context {R : Type} `{io.ReadCloser R}.

(** [type scannerIter struct { c io.Closer; scanner *bufio.Scanner }];
    [c] is the resource, which is also what [scanner] reads from. *)
Record t : Type := mk { c : R; scanner : bufio.Scanner }.

(** Modelled from the spec: the constructor is not among the sources;
    "Construction takes a readable-and-closable resource and wraps it in a
    buffered, line-oriented splitter (default buffering behavior ...)". *)
Definition new (r : R) : t := mk r bufio.NewScanner.

Definition Item (i : t) : String.string := bufio.Text (scanner i).

Definition Next (fuel : nat) (i : t) : option (bufio.exit * t) :=
  match bufio.Scan fuel (c i) (scanner i) with
  | Some (e, s, r) => Some (e, mk r s)
  | None => None
  end.

Definition Err (i : t) : option error := bufio.Err (scanner i).

Definition Close (i : t) : option error * t :=
  let (e, r) := io.Close (c i) in (e, mk r (scanner i)).

(** *** Consumers *)

Inductive call : Type := CallItem | CallNext | CallErr | CallClose.

Inductive reply : Type :=
| RItem (x : String.string)
| RNext (e : bufio.exit)
| RErr (e : option error)
| RClose (e : option error).

Definition exec (fuel : nat) (c : call) (i : t) : option (reply * t) :=
  match c with
  | CallItem => Some (RItem (Item i), i)
  | CallNext =>
      match Next fuel i with
      | Some (e, i') => Some (RNext e, i')
      | None => None
      end
  | CallErr => Some (RErr (Err i), i)
  | CallClose => let (e, i') := Close i in Some (RClose e, i')
  end.

(** A session: the calls in order, each on the state the one before left;
    [None] when a [Next()] ran out of fuel. *)
Fixpoint play (fuel : nat) (cs : list call) (i : t) : option (list reply * t) :=
  match cs with
  | [] => Some ([], i)
  | c :: cs' =>
      match exec fuel c i with
      | Some (r, i') =>
          match play fuel cs' i' with
          | Some (rs, i'') => Some (r :: rs, i'')
          | None => None
          end
      | None => None
      end
  end.

(** The loop the interface is made for,
    [for i.Next() { items = append(items, i.Item()) }], with at most
    [rounds] calls of [Next()]: the items it appends, how the [Next()]
    that ended it returned, and the state it leaves. *)
Fixpoint collect (fuel rounds : nat) (i : t)
  : option (list String.string * bufio.exit * t) :=
  match rounds with
  | O => None
  | S rounds' =>
      match Next fuel i with
      | Some (bufio.Return true, i') =>
          match collect fuel rounds' i' with
          | Some (items, e, i'') => Some (Item i' :: items, e, i'')
          | None => None
          end
      | Some (e, i') => Some ([], e, i')
      | None => None
      end
  end.



End Methods.
Arguments t R : clear implicits.

(** *** Over a file *)

(** What the iterator has yet to go through: the bytes in the buffer and
    the bytes the file still holds. *)
Definition upcoming (i : t file.t) : list byte :=
  bufio.data (scanner i) ++ concat (file.pending (c i)).

(** What a session returned, and what it left of the scanner's error and
    buffer. *)
Definition outcome (x : option (list reply * t file.t))
  : option (list reply * option error * list byte) :=
  match x with
  | Some (rs, i) => Some (rs, bufio.err (scanner i), bufio.data (scanner i))
  | None => None
  end.

Definition plenty : nat := S (Z.to_nat bufio.MaxScanTokenSize).

(** ["a\nb\nc"] and ["a\nb\n"]. *)
Definition a_b_c : list byte := [x61; x0a; x62; x0a; x63].
Definition a_b_ : list byte := [x61; x0a; x62; x0a].

(** A file that ends in [io.EOF], whatever the pieces its reads bring and
    whatever its [Close] returns. *)
Definition sound_file (pieces : list (list byte)) (ce : option error) : file.t :=
  file.mk pieces EOF ce 0.

Definition read_three : list call :=
  [CallNext; CallItem; CallNext; CallItem; CallNext; CallItem; CallNext; CallErr].
Definition read_two : list call :=
  [CallNext; CallItem; CallNext; CallItem; CallNext; CallErr].

(** The lines of a content as its reader counts them: what stands before
    each newline, and what stands after the last one unless that is
    nothing. *)
Fixpoint lines (content : list byte) : list (list byte) :=
  match content with
  | [] => []
  | x :: rest =>
      if Byte.eqb x x0a then [] :: lines rest
      else match lines rest with
           | [] => [[x]]
           | line :: more => (x :: line) :: more
           end
  end.

(** The same as the strings an iterator is to hand out: a carriage return
    before the newline goes with it. *)
Definition items_of (content : list byte) : list String.string :=
  map (fun line => String.string_of_list_byte (bufio.dropCR line)) (lines content).

(** ["a\r\nb\n\nc"] as two reads bring it, and ["a\nb"] before a read
    that fails. *)
Definition crlf_pieces : list (list byte) :=
  [[x61; x0d; x0a; x62]; [x0a; x0a; x63]].
Definition failure : error := ErrOther 5.

(** An iterator whose last read failed with ["b"] in the buffer. *)
Definition failed : t file.t :=
  mk (file.mk [] failure None 0)
     (bufio.set_err (Some failure)
        (bufio.set_window bufio.startBufSize 0 [x62] bufio.NewScanner)).

Import Stdlib.Strings.String.

Definition three_lines : list reply :=
  [RNext (bufio.Return true); RItem "a"%string;
   RNext (bufio.Return true); RItem "b"%string;
   RNext (bufio.Return true); RItem "c"%string;
   RNext (bufio.Return false); RErr None].
Definition two_lines : list reply :=
  [RNext (bufio.Return true); RItem "a"%string;
   RNext (bufio.Return true); RItem "b"%string;
   RNext (bufio.Return false); RErr None].

(** The items of [crlf_pieces]: the second newline ends an empty line. *)
Definition crlf_strings : list string :=
  ["a"%string; "b"%string; EmptyString; "c"%string].

End scannerIter.



(** * Properties *)

(** ** Go's [int] *)

Section GoIntFacts.

Lemma wrap_id z : is_int z -> wrap z = z.
Proof.
  unfold is_int, wrap, minInt, maxInt, intSize. intros Hz.
  rewrite Z.mod_small; lia.
Qed.

Lemma maxInt_pos : 0 < maxInt.
Proof. reflexivity. Qed.

Lemma minInt_neg : minInt < 0.
Proof. reflexivity. Qed.

Lemma len_nonneg {T} (s : list T) : 0 <= len s.
Proof. unfold len. lia. Qed.

Lemma index_lookup {T} (s : list T) (k : nat) :
  (k < length s)%nat -> index s (Z.of_nat k) = s !! k.
Proof.
  intros Hk. unfold index, len.
  destruct (Z.leb_spec 0 (Z.of_nat k)); [|lia].
  destruct (Z.ltb_spec (Z.of_nat k) (Z.of_nat (length s))); [|lia].
  simpl. now rewrite Nat2Z.id.
Qed.



Lemma len_nil_inv {A} (l : list A) : len l = 0 -> l = [].
Proof. destruct l; [reflexivity|]. unfold len. cbn. lia. Qed.

Lemma len_app {A} (l k : list A) : len (l ++ k) = len l + len k.
Proof. unfold len. rewrite length_app. lia. Qed.

Lemma len_pos_nonempty {A} (l : list A) : l <> [] -> 0 < len l.
Proof. destruct l; [congruence|]. unfold len. cbn [length]. lia. Qed.

End GoIntFacts.

(** ** sliceIter *)

Module sliceIterSpec.
Import sliceIter.

Section Cursor.
Context {T : Type}.
Implicit Types (i : t T) (vs : list T) (cs : list call).

(** The three cases of [Next], by where the cursor stands. *)
Lemma Next_below i :
  is_int (next i) -> fits (values i) -> next i < len (values i) ->
  Next i = (true, mk (values i) (next i + 1)).
Proof.
  unfold fits, is_int. intros Hi Hf Hlt. unfold Next.
  destruct (Z.leb_spec (next i) (len (values i))); [|lia].
  rewrite wrap_id by (unfold is_int; lia). simpl.
  destruct (Z.leb_spec (next i + 1) (len (values i))); [reflexivity|lia].
Qed.

Lemma Next_at_length i :
  fits (values i) -> next i = len (values i) ->
  Next i = (false, mk (values i) (len (values i) + 1)).
Proof.
  unfold fits. intros Hf Heq. unfold Next. rewrite Heq.
  pose proof (len_nonneg (values i)) as H0. pose proof minInt_neg as Hm.
  destruct (Z.leb_spec (len (values i)) (len (values i))); [|lia].
  rewrite wrap_id by (unfold is_int; lia). simpl.
  destruct (Z.leb_spec (len (values i) + 1) (len (values i))); [lia|reflexivity].
Qed.

Lemma Next_beyond i : len (values i) < next i -> Next i = (false, i).
Proof.
  intros Hgt. unfold Next.
  destruct (next i <=? len (values i)) eqn:E; [apply Z.leb_le in E; lia|].
  simpl. now rewrite E.
Qed.

Lemma in_range_int i : fits (values i) -> in_range i -> is_int (next i).
Proof.
  unfold fits, in_range, is_int. pose proof minInt_neg. lia.
Qed.

Lemma new_in_range vs : in_range (new vs).
Proof. unfold in_range, new. simpl. pose proof (len_nonneg vs). lia. Qed.

Lemma Next_values i : values (Next i).2 = values i.
Proof. unfold Next. simpl. now destruct (next i <=? len (values i)). Qed.

Lemma Next_in_range i :
  fits (values i) -> in_range i -> in_range (Next i).2.
Proof.
  intros Hf Hr. pose proof (in_range_int i Hf Hr) as Hi.
  unfold in_range in *.
  destruct (Z.lt_trichotomy (next i) (len (values i))) as [Hlt|[Heq|Hgt]].
  - rewrite Next_below by assumption. simpl. lia.
  - rewrite Next_at_length by assumption. simpl. lia.
  - rewrite Next_beyond by assumption. simpl. lia.
Qed.

Lemma exec_values c i : values (exec c i).2 = values i.
Proof.
  destruct c; cbn [exec]; try reflexivity.
  pose proof (Next_values i) as H. destruct (Next i); simpl in *. exact H.
Qed.

Lemma exec_in_range c i :
  fits (values i) -> in_range i -> in_range (exec c i).2.
Proof.
  intros Hf Hr. destruct c; cbn [exec]; try assumption.
  pose proof (Next_in_range i Hf Hr) as H. destruct (Next i); simpl in *. exact H.
Qed.

Lemma play_cons c cs i :
  play (c :: cs) i =
    ((exec c i).1 :: (play cs (exec c i).2).1, (play cs (exec c i).2).2).
Proof.
  cbn [play]. destruct (exec c i) as [r i']. cbn [fst snd].
  now destruct (play cs i').
Qed.

Lemma run_cons c cs i : run (c :: cs) i = run cs (exec c i).2.
Proof. unfold run. now rewrite play_cons. Qed.

Lemma replies_cons c cs i :
  replies (c :: cs) i = (exec c i).1 :: replies cs (exec c i).2.
Proof. unfold replies. now rewrite play_cons. Qed.



Lemma run_values cs i : values (run cs i) = values i.
Proof.
  revert i. induction cs as [|c cs IH]; intros i; [reflexivity|].
  rewrite run_cons, IH. apply exec_values.
Qed.

Lemma run_in_range cs i :
  fits (values i) -> in_range i -> in_range (run cs i).
Proof.
  revert i. induction cs as [|c cs IH]; intros i Hf Hr; [assumption|].
  rewrite run_cons. apply IH.
  - now rewrite exec_values.
  - now apply exec_in_range.
Qed.


Lemma next_replies_Next b (rs : list (@reply T)) :
  next_replies (RNext b :: rs) = b :: next_replies rs.
Proof. reflexivity. Qed.




Lemma session_shape cs i :
  fits (values i) -> in_range i ->
  next (run cs i) = Z.min (next i + Z.of_nat (nexts cs)) (len (values i) + 1)
  /\ next_replies (replies cs i) =
       replicate (Nat.min (nexts cs) (remaining i)) true
       ++ replicate (nexts cs - remaining i) false.
Proof.
  revert i. induction cs as [|c cs IH]; intros i Hf Hr.
  { unfold in_range in Hr. cbn. split; [lia|reflexivity]. }
  rewrite run_cons, replies_cons.
  assert (Hother : (exec c i).2 = i -> nexts (c :: cs) = nexts cs ->
            next_replies ((exec c i).1 :: replies cs i) = next_replies (replies cs i) ->
            next (run cs (exec c i).2) =
              Z.min (next i + Z.of_nat (nexts (c :: cs))) (len (values i) + 1)
            /\ next_replies ((exec c i).1 :: replies cs (exec c i).2) =
                 replicate (Nat.min (nexts (c :: cs)) (remaining i)) true
                 ++ replicate (nexts (c :: cs) - remaining i) false).
  { intros -> -> ->. now apply IH. }
  destruct c; try (apply Hother; reflexivity). clear Hother.
  pose proof (in_range_int i Hf Hr) as Hi. unfold in_range in Hr.
  cbn [exec nexts].
  destruct (Z.lt_trichotomy (next i) (len (values i))) as [Hlt|[Heq|Hgt]].
  - rewrite Next_below by assumption. cbn [fst snd].
    destruct (IH (mk (values i) (next i + 1))) as [IHn IHr];
      [assumption|unfold in_range; cbn; lia|].
    rewrite next_replies_Next.
    rewrite IHn, IHr. unfold remaining. cbn [values next].
    replace (Z.to_nat (len (values i) - next i))
      with (S (Z.to_nat (len (values i) - (next i + 1)))) by lia.
    split; [lia|]. reflexivity.
  - rewrite Next_at_length by assumption. cbn [fst snd].
    destruct (IH (mk (values i) (len (values i) + 1))) as [IHn IHr];
      [assumption|unfold in_range; cbn; lia|].
    rewrite next_replies_Next.
    rewrite IHn, IHr. unfold remaining. cbn [values next].
    replace (Z.to_nat (len (values i) - next i)) with 0%nat by lia.
    replace (Z.to_nat (len (values i) - (len (values i) + 1))) with 0%nat by lia.
    split; [lia|]. rewrite !Nat.min_0_r, !Nat.sub_0_r. reflexivity.
  - rewrite Next_beyond by assumption. cbn [fst snd].
    destruct (IH i) as [IHn IHr]; [assumption|unfold in_range; lia|].
    rewrite next_replies_Next.
    rewrite IHn, IHr. unfold remaining.
    replace (Z.to_nat (len (values i) - next i)) with 0%nat by lia.
    split; [lia|]. rewrite !Nat.min_0_r, !Nat.sub_0_r. reflexivity.
Qed.


Lemma session_from_new vs cs :
  fits vs ->
  values (run cs (new vs)) = vs
  /\ next (run cs (new vs)) = Z.min (Z.of_nat (nexts cs)) (len vs + 1)
  /\ next_replies (replies cs (new vs)) =
       replicate (Nat.min (nexts cs) (length vs)) true
       ++ replicate (nexts cs - length vs) false.
Proof.
  intros Hf. split; [apply run_values|].
  destruct (session_shape cs (new vs) Hf (new_in_range vs)) as [Hn Hr].
  rewrite Hn, Hr. unfold remaining, new, len. cbn [values next].
  rewrite Z.sub_0_r, Nat2Z.id. split; reflexivity.
Qed.

(** C1, as the code has it: from construction on, whatever the consumer
    calls, the backing list stays and the cursor stays within
    [0, length+1]; [Next()] returns false exactly when the cursor has
    reached the length, and the cursor stands at length+1 exactly when a
    [Next()] has returned false. *)
Theorem cursor_range vs cs :
  fits vs ->
  let i := run cs (new vs) in
  values i = vs
  /\ 0 <= next i <= len vs + 1
  /\ ((Next i).1 = false <-> len vs <= next i)
  /\ (next i = len vs + 1 <-> false ∈ next_replies (replies cs (new vs))).
Proof.
  intros Hf i.
  destruct (session_from_new vs cs Hf) as (Hv & Hn & Hr).
  assert (Hrange : in_range i).
  { apply run_in_range; [exact Hf|apply new_in_range]. }
  fold i in Hv, Hn. unfold in_range in Hrange. rewrite Hv in Hrange.
  split; [exact Hv|]. split; [exact Hrange|]. split.
  - assert (Hfi : fits (values i)) by now rewrite Hv.
    pose proof (in_range_int i Hfi) as Hint. unfold in_range in Hint.
    rewrite Hv in Hint. specialize (Hint Hrange).
    destruct (Z.lt_trichotomy (next i) (len vs)) as [Hlt|[Heq|Hgt]].
    + rewrite Next_below by (rewrite ?Hv; assumption). cbn. split; [discriminate|lia].
    + rewrite Next_at_length by (rewrite ?Hv; assumption). cbn. split; [lia|reflexivity].
    + rewrite Next_beyond by (rewrite ?Hv; assumption). cbn. split; [lia|reflexivity].
  - rewrite Hr, Hn, elem_of_app, !elem_of_replicate. unfold len. split.
    + intros H. right. split; [reflexivity|lia].
    + intros [[? _]|[_ H]]; [discriminate|lia].
Qed.

(** C2, as the code has it: below the length [Next()] moves the cursor one
    up and returns true; at the length it moves the cursor to length+1 and
    returns false; beyond the length it changes nothing and returns false. *)
Theorem Next_by_cursor i :
  is_int (next i) -> fits (values i) ->
  (next i < len (values i) -> Next i = (true, mk (values i) (next i + 1)))
  /\ (next i = len (values i) ->
      Next i = (false, mk (values i) (len (values i) + 1)))
  /\ (len (values i) < next i -> Next i = (false, i)).
Proof.
  intros Hi Hf. repeat split; intros H.
  - now apply Next_below.
  - now apply Next_at_length.
  - now apply Next_beyond.
Qed.


(** C4: after the k-th [Next()] of a session over a list of length N,
    1 <= k <= N, that call has returned true and [Item()] is the element at
    index k-1. *)
Theorem Item_after_kth_Next vs cs k :
  fits vs -> nexts cs = k -> (1 <= k <= length vs)%nat ->
  next_replies (replies cs (new vs)) !! (k - 1)%nat = Some true
  /\ Item (run cs (new vs)) = vs !! (k - 1)%nat
  /\ is_Some (vs !! (k - 1)%nat).
Proof.
  intros Hf Hk Hrange.
  destruct (session_from_new vs cs Hf) as (Hv & Hn & Hr).
  rewrite Hk in Hn, Hr. split; [|split].
  - rewrite Hr, lookup_app_l by (rewrite length_replicate; lia).
    apply lookup_replicate_2. lia.
  - unfold Item, Item_index. rewrite Hv, Hn.
    replace (Z.of_nat k `min` (len vs + 1)) with (Z.of_nat k) by (unfold len; lia).
    unfold fits, len in Hf. pose proof minInt_neg.
    rewrite wrap_id by (unfold is_int; lia).
    replace (Z.of_nat k - 1) with (Z.of_nat (k - 1)) by lia.
    apply index_lookup. lia.
  - apply lookup_lt_is_Some. lia.
Qed.


Lemma Forall_replicate_eq {A} (x : A) n : Forall (eq x) (replicate n x).
Proof. induction n; constructor; auto. Qed.

(** C5, as the code has it: once the cursor has reached the length no
    [Next()] returns true again, whatever the consumer calls; at the length
    [Next()] still moves the cursor, to length+1, and from there on every
    call leaves the state as it is. *)
Theorem exhaustion_is_permanent i cs :
  fits (values i) -> in_range i -> len (values i) <= next i ->
  Forall (eq false) (next_replies (replies cs i))
  /\ (next i = len (values i) ->
      Next i = (false, mk (values i) (len (values i) + 1)))
  /\ (next i = len (values i) + 1 -> Next i = (false, i) /\ run cs i = i).
Proof.
  intros Hf Hr Hge. split; [|split].
  - destruct (session_shape cs i Hf Hr) as [_ ->].
    unfold remaining. replace (Z.to_nat (len (values i) - next i)) with 0%nat by lia.
    rewrite Nat.min_0_r. cbn [replicate app]. apply Forall_replicate_eq.
  - intros Heq. now apply Next_at_length.
  - intros Heq. split; [apply Next_beyond; lia|].
    destruct (session_shape cs i Hf Hr) as [Hn _].
    pose proof (run_values cs i) as Hv.
    destruct (run cs i) as [vs n], i as [vs0 n0]. cbn in *. subst. f_equal. lia.
Qed.

(** C7: no call changes the backing list, [Item()], [Err()] and [Close()]
    change nothing at all, and [Next()] changes at most the cursor. *)
Theorem values_never_change i cs :
  values (run cs i) = values i
  /\ (exec CallItem i).2 = i
  /\ (exec CallErr i).2 = i
  /\ (exec CallClose i).2 = i
  /\ (exec CallNext i).2 = mk (values i) (next (Next i).2).
Proof.
  split; [apply run_values|]. repeat split.
  cbn [exec]. pose proof (Next_values i) as Hv.
  destruct (Next i) as [b [vs n]]. cbn in *. now subst.
Qed.


End Cursor.
End sliceIterSpec.

Module sliceIterExamples.
Import sliceIter sliceIterSpec.

Example session_replies :
  replies session (new two) =
    [RItem None; RNext true; RItem (Some 10%nat); RErr None; RNext true;
     RItem (Some 20%nat); RNext false; RItem None; RNext false; RClose None].
Proof. reflexivity. Qed.

Lemma two_fits : fits two.
Proof. reflexivity. Defined.

(** C1 as stated fails: after the [Next()] that reports exhaustion the
    cursor stands at length+1, outside [0, length]; and a cursor equal to
    the length is the state in which the last item is current. *)
Lemma cursor_passes_length :
  next (run [CallNext; CallNext] (new [7%nat])) = 2
  /\ len (values (run [CallNext; CallNext] (new [7%nat]))) = 1
  /\ ~ (0 <= next (run [CallNext; CallNext] (new [7%nat]))
        <= len (values (run [CallNext; CallNext] (new [7%nat]))))
  /\ next (run [CallNext] (new [7%nat])) = len [7%nat]
  /\ replies [CallNext; CallItem] (new [7%nat]) = [RNext true; RItem (Some 7%nat)].
Proof.
  split; [reflexivity|]. split; [reflexivity|]. split.
  - cbn. intros [_ H]. revert H. apply Z.lt_nge. reflexivity.
  - split; reflexivity.
Qed.

Lemma cursor_range_witness :
  fits two
  /\ (values (run session (new two)) = two
      /\ 0 <= next (run session (new two)) <= len two + 1
      /\ ((Next (run session (new two))).1 = false
          <-> len two <= next (run session (new two)))
      /\ (next (run session (new two)) = len two + 1
          <-> false ∈ next_replies (replies session (new two)))).
Proof. split; [exact two_fits|]. exact (cursor_range two session two_fits). Defined.

(** C2 as stated fails: with the cursor at the length, here 0 on the empty
    list, [Next()] returns false and yet moves the cursor, to 1. *)
Lemma Next_at_length_moves_cursor :
  next (new (@nil nat)) = len (@nil nat)
  /\ Next (new (@nil nat)) = (false, mk [] 1)
  /\ Next (new (@nil nat)) <> (false, new []).
Proof. split; [reflexivity|]. split; [reflexivity|]. discriminate. Qed.

Lemma Next_by_cursor_witness :
  is_int (next (mk two 1)) /\ fits (values (mk two 1))
  /\ ((next (mk two 1) < len (values (mk two 1)) ->
       Next (mk two 1) = (true, mk (values (mk two 1)) (next (mk two 1) + 1)))
      /\ (next (mk two 1) = len (values (mk two 1)) ->
          Next (mk two 1) = (false, mk (values (mk two 1)) (len (values (mk two 1)) + 1)))
      /\ (len (values (mk two 1)) < next (mk two 1) ->
          Next (mk two 1) = (false, mk two 1))).
Proof.
  assert (Hi : is_int (next (mk two 1))) by (split; discriminate).
  split; [exact Hi|]. split; [exact two_fits|].
  exact (Next_by_cursor (mk two 1) Hi two_fits).
Defined.


Lemma Item_after_kth_Next_witness :
  fits two /\ nexts [CallNext; CallErr; CallNext] = 2%nat
  /\ (1 <= 2 <= length two)%nat
  /\ (next_replies (replies [CallNext; CallErr; CallNext] (new two)) !! (2 - 1)%nat
        = Some true
      /\ Item (run [CallNext; CallErr; CallNext] (new two)) = two !! (2 - 1)%nat
      /\ is_Some (two !! (2 - 1)%nat)).
Proof.
  assert (Hk : (1 <= 2 <= length two)%nat) by (cbn; lia).
  split; [exact two_fits|]. split; [reflexivity|]. split; [exact Hk|].
  exact (Item_after_kth_Next two [CallNext; CallErr; CallNext] 2 two_fits eq_refl Hk).
Defined.

(** C5 as stated fails: in the state the claim calls exhausted, cursor
    equal to the length, [Next()] is not a no-op: it moves the cursor on. *)
Lemma Next_at_length_is_no_noop :
  run [CallNext] (new [7%nat]) = mk [7%nat] 1
  /\ next (mk [7%nat] 1) = len (values (mk [7%nat] 1))
  /\ Next (mk [7%nat] 1) = (false, mk [7%nat] 2)
  /\ (Next (mk [7%nat] 1)).2 <> mk [7%nat] 1.
Proof. repeat split; try reflexivity. discriminate. Qed.

Lemma exhaustion_is_permanent_witness :
  fits (values (mk two 3)) /\ in_range (mk two 3)
  /\ len (values (mk two 3)) <= next (mk two 3)
  /\ (Forall (eq false) (next_replies (replies session (mk two 3)))
      /\ (next (mk two 3) = len (values (mk two 3)) ->
          Next (mk two 3) = (false, mk (values (mk two 3)) (len (values (mk two 3)) + 1)))
      /\ (next (mk two 3) = len (values (mk two 3)) + 1 ->
          Next (mk two 3) = (false, mk two 3) /\ run session (mk two 3) = mk two 3)).
Proof.
  assert (Hr : in_range (mk two 3)) by (split; discriminate).
  assert (Hge : len (values (mk two 3)) <= next (mk two 3)) by discriminate.
  split; [exact two_fits|]. split; [exact Hr|]. split; [exact Hge|].
  exact (exhaustion_is_permanent (mk two 3) session two_fits Hr Hge).
Defined.


End sliceIterExamples.

(** ** sliceIter: the consumer's loop, and the calls that do not count *)
Module sliceIterLoop.
Import sliceIter sliceIterSpec.

Section Loop.
Context {T : Type}.
Implicit Types (i : t T) (vs : list T) (cs : list call).

Lemma index_at {A} (s : list A) (k : Z) :
  0 <= k < len s -> index s k = s !! Z.to_nat k /\ is_Some (s !! Z.to_nat k).
Proof.
  intros Hk. unfold index.
  replace (0 <=? k) with true by (symmetry; apply Z.leb_le; lia).
  replace (k <? len s) with true by (symmetry; apply Z.ltb_lt; lia).
  split; [reflexivity|]. apply lookup_lt_is_Some. unfold len in Hk. lia.
Qed.

Lemma collect_from i rounds :
  fits (values i) -> in_range i -> (remaining i < rounds)%nat ->
  collect rounds i =
    Some (map Some (drop (Z.to_nat (next i)) (values i)),
          mk (values i) (len (values i) + 1)).
Proof.
  revert i. induction rounds as [|rounds IH]; intros i Hf Hr Hrounds; [lia|].
  pose proof (in_range_int i Hf Hr) as Hi. unfold in_range in Hr.
  unfold remaining in Hrounds. cbn [collect].
  destruct (Z.lt_trichotomy (next i) (len (values i))) as [Hlt|[Heq|Hgt]].
  - rewrite Next_below by assumption.
    rewrite (IH (mk (values i) (next i + 1)));
      [|assumption|unfold in_range; cbn [values next]; lia
       |unfold remaining; cbn [values next]; lia].
    cbn [values next]. unfold Item, Item_index. cbn [values next].
    unfold fits in Hf. pose proof minInt_neg as Hm.
    rewrite wrap_id by (unfold is_int; lia).
    destruct (index_at (values i) (next i + 1 - 1)) as [-> [x Hx]]; [lia|].
    replace (next i + 1 - 1) with (next i) in * by lia.
    rewrite (drop_S _ _ _ Hx).
    replace (Z.to_nat (next i + 1)) with (S (Z.to_nat (next i))) by lia.
    cbn [map]. rewrite Hx. reflexivity.
  - rewrite Next_at_length by assumption.
    rewrite drop_ge by (unfold len in *; lia). reflexivity.
  - rewrite Next_beyond by assumption.
    rewrite drop_ge by (unfold len in *; lia).
    destruct i as [vs n]. cbn [values next] in *.
    replace n with (len vs + 1) by lia. reflexivity.
Qed.

(** X1: the consumer's loop over a fresh iterator ends, after length+1
    calls of [Next()], and has then appended exactly the elements of the
    list, in order and each once, with no access out of range; started
    from a state in mid-iteration it appends the elements from the cursor
    on. *)
Theorem collect_hands_out_the_list vs cs rounds :
  fits vs -> (length vs < rounds)%nat ->
  collect rounds (new vs) = Some (map Some vs, mk vs (len vs + 1))
  /\ collect rounds (run cs (new vs)) =
       Some (map Some (drop (nexts cs) vs), mk vs (len vs + 1)).
Proof.
  intros Hf Hrounds. split.
  - rewrite (collect_from (new vs) rounds Hf (new_in_range vs)); [reflexivity|].
    unfold remaining, new, len. cbn [values next]. lia.
  - destruct (session_from_new vs cs Hf) as (Hv & Hn & _).
    assert (Hr : in_range (run cs (new vs)))
      by (apply run_in_range; [exact Hf|apply new_in_range]).
    rewrite collect_from; [|now rewrite Hv|exact Hr|].
    + rewrite Hv, Hn. f_equal. f_equal. f_equal.
      destruct (Nat.le_gt_cases (nexts cs) (length vs)) as [Hle|Hgt].
      * f_equal. unfold len. lia.
      * rewrite !drop_ge; [reflexivity|lia|unfold len; lia].
    + unfold remaining. rewrite Hv, Hn. unfold len. lia.
Qed.

Lemma error_replies_cons r (rs : list (@reply T)) :
  error_replies (r :: rs) =
    match r with RErr e | RClose e => [e] | _ => [] end ++ error_replies rs.
Proof. destruct r; reflexivity. Qed.

(** X2: [Item()], [Err()] and [Close()] are observers. A session leaves
    the state, and its [Next()] calls return, what the [Next()] calls
    alone would have; so a [Close()] neither ends nor restarts the
    iteration. Every [Err()] and every [Close()] returns nil. *)
Theorem only_Next_counts i cs :
  run cs i = run (replicate (nexts cs) CallNext) i
  /\ next_replies (replies cs i) =
       next_replies (replies (replicate (nexts cs) CallNext) i)
  /\ Forall (eq None) (error_replies (replies cs i)).
Proof.
  revert i. induction cs as [|c cs IH]; intros i; [repeat split; constructor|].
  rewrite run_cons, replies_cons, error_replies_cons.
  destruct (IH (exec c i).2) as (IHrun & IHnext & IHerr).
  destruct c; cbn [nexts replicate]; rewrite ?run_cons, ?replies_cons.
  - split; [exact IHrun|]. split; [exact IHnext|exact IHerr].
  - cbn [exec] in *. destruct (Next i) as [b i']. cbn [fst snd] in *.
    rewrite !next_replies_Next. split; [exact IHrun|]. split; [now f_equal|exact IHerr].
  - split; [exact IHrun|]. split; [exact IHnext|].
    cbn [exec fst snd app] in *. constructor; [reflexivity|exact IHerr].
  - split; [exact IHrun|]. split; [exact IHnext|].
    cbn [exec fst snd app] in *. constructor; [reflexivity|exact IHerr].
Qed.

(** X3: the cursor counts the calls of [Next()] up to length+1, where it
    stops: no call moves it back, and none moves it by more than one. *)
Theorem cursor_counts_Next vs cs :
  fits vs ->
  next (run cs (new vs)) = Z.min (Z.of_nat (nexts cs)) (len vs + 1)
  /\ forall c,
       next (run cs (new vs)) <= next (run (cs ++ [c]) (new vs))
         <= next (run cs (new vs)) + 1.
Proof.
  intros Hf. destruct (session_from_new vs cs Hf) as (_ & Hn & _).
  split; [exact Hn|]. intros c.
  destruct (session_from_new vs (cs ++ [c]) Hf) as (_ & Hn' & _).
  rewrite Hn, Hn'.
  assert (Hc : (nexts cs <= nexts (cs ++ [c]) <= S (nexts cs))%nat).
  { clear. induction cs as [|c0 cs IH]; [destruct c; cbn; lia|].
    rewrite <- app_comm_cons. destruct c0; cbn [nexts]; lia. }
  lia.
Qed.

End Loop.

Lemma collect_hands_out_the_list_witness :
  fits two /\ (length two < 3)%nat
  /\ collect 3 (new two) = Some (map Some two, mk two (len two + 1))
  /\ collect 3 (run [CallNext; CallClose] (new two)) =
       Some (map Some (drop (nexts [CallNext; CallClose]) two),
             mk two (len two + 1)).
Proof.
  split; [exact sliceIterExamples.two_fits|]. split; [repeat constructor|].
  exact (collect_hands_out_the_list two [CallNext; CallClose] 3
           sliceIterExamples.two_fits ltac:(repeat constructor)).
Defined.

Lemma cursor_counts_Next_witness :
  fits two
  /\ next (run session (new two)) = Z.min (Z.of_nat (nexts session)) (len two + 1)
  /\ forall c,
       next (run session (new two)) <= next (run (session ++ [c]) (new two))
         <= next (run session (new two)) + 1.
Proof.
  split; [exact sliceIterExamples.two_fits|].
  exact (cursor_counts_Next two session sliceIterExamples.two_fits).
Defined.

End sliceIterLoop.

(** ** bufio.Scanner *)

Module bufioSpec.
Import bufio.

Lemma IndexByte_bounds b c : -1 <= IndexByte b c < len b.
Proof.
  unfold len. induction b as [|x b IH]; cbn [IndexByte length]; [lia|].
  destruct (Byte.eqb x c); [lia|].
  destruct (Z.ltb_spec (IndexByte b c) 0); lia.
Qed.

Lemma IndexByte_absent b c : c ∉ b -> IndexByte b c = -1.
Proof.
  induction b as [|x b IH]; intros Hc; cbn [IndexByte]; [reflexivity|].
  apply not_elem_of_cons in Hc as [Hx Hb].
  destruct (Byte.eqb x c) eqn:E.
  - apply Byte.byte_dec_bl in E. congruence.
  - rewrite (IH Hb). reflexivity.
Qed.

Lemma IndexByte_present b c : c ∈ b -> 0 <= IndexByte b c.
Proof.
  induction b as [|x b IH]; intros Hc; cbn [IndexByte].
  - apply elem_of_nil in Hc as [].
  - destruct (Byte.eqb x c) eqn:E; [lia|].
    apply elem_of_cons in Hc as [->|Hb].
    + rewrite (Byte.byte_dec_lb eq_refl) in E. discriminate.
    + specialize (IH Hb). destruct (Z.ltb_spec (IndexByte b c) 0); lia.
Qed.

(** [ScanLines] asks for more data as long as it sees no newline. *)
Lemma ScanLines_more data : x0a ∉ data -> ScanLines data false = (0, None, None).
Proof.
  intros Hn. unfold ScanLines. cbn [andb].
  rewrite (IndexByte_absent _ _ Hn). reflexivity.
Qed.

(** At the end of the input it hands out whatever is left. *)
Lemma ScanLines_atEOF data :
  ScanLines data true =
    if len data =? 0 then (0, None, None)
    else if 0 <=? IndexByte data x0a
         then (IndexByte data x0a + 1,
               Some (dropCR (take (Z.to_nat (IndexByte data x0a)) data)), None)
         else (len data, Some (dropCR data), None).
Proof. unfold ScanLines. cbn [andb]. reflexivity. Qed.

Lemma ScanLines_no_error data atEOF : (ScanLines data atEOF).2 = None.
Proof.
  unfold ScanLines.
  destruct (atEOF && (len data =? 0)); [reflexivity|].
  destruct (0 <=? IndexByte data x0a); [reflexivity|].
  destruct atEOF; reflexivity.
Qed.

Lemma NewScanner_wf : wf NewScanner.
Proof. split; try reflexivity; cbn; try lia. discriminate. Qed.


Lemma set_scanCalled_wf s : wf s -> wf (set_scanCalled true s).
Proof. intros []; split; assumption. Qed.

Section AnyReader.
Context {R : Type} `{io.ReadCloser R}.

(** Once an error is recorded, a turn of the loop ends the call without
    reading: it hands out what the buffer still holds, or returns false
    when the buffer is empty. *)
Lemma turn_after_error (r : R) s e :
  wf s -> err s = Some e ->
  exists s',
    turn_of r s = Exit (Return (negb (len (data s) =? 0))) s' r
    /\ wf s' /\ err s' = Some e
    /\ scanCalled s' = scanCalled s
    /\ (data s = [] -> data s' = [])
    /\ (data s <> [] -> len (data s') < len (data s))
    /\ (data s <> [] -> x0a ∉ data s ->
        data s' = [] /\ token s' = Some (dropCR (data s))).
Proof.
  intros [Hsplit Hmax Hstart Hend Hbuf Hdone] He.
  unfold turn_of. rewrite He, Hsplit. proj. rewrite orb_true_r.
  rewrite ScanLines_atEOF. unfold end_ in *.
  pose proof (IndexByte_bounds (data s) x0a) as Hidx.
  destruct (Z.eqb_spec (len (data s)) 0) as [Hz|Hnz].
  - (* nothing buffered *)
    pose proof (len_nil_inv _ Hz) as Hnil.
    unfold advance, end_.
    replace (0 <? 0) with false by reflexivity.
    replace (start s + len (data s) - start s <? 0) with false
      by (symmetry; apply Z.ltb_ge; lia).
    proj. unfold fill. proj. rewrite He. proj.
    eexists. split; [reflexivity|]. proj.
    split; [split; proj; unfold end_; proj; try assumption; unfold len; cbn [length]; lia|].
    split; [assumption|]. split; [reflexivity|].
    split; [reflexivity|]. split; intros Hne; congruence.
  - assert (Hne : data s <> []).
    { intros Hnil. rewrite Hnil in Hnz. apply Hnz. reflexivity. }
    assert (Hlen : 0 < len (data s)) by (unfold len in *; lia).
    destruct (Z.leb_spec 0 (IndexByte (data s) x0a)) as [Hfound|Hnone].
    + (* a whole line *)
      unfold advance, end_.
      replace (IndexByte (data s) x0a + 1 <? 0) with false
        by (symmetry; apply Z.ltb_ge; lia).
      replace (start s + len (data s) - start s <? IndexByte (data s) x0a + 1)
        with false by (symmetry; apply Z.ltb_ge; lia).
      proj. rewrite He. proj.
      replace (0 <? IndexByte (data s) x0a + 1) with true
        by (symmetry; apply Z.ltb_lt; lia).
      eexists. split; [reflexivity|]. proj.
      assert (Hdrop : len (drop (Z.to_nat (IndexByte (data s) x0a + 1)) (data s))
                      = len (data s) - (IndexByte (data s) x0a + 1)).
      { unfold len in *. rewrite length_drop. lia. }
      split; [split; proj; unfold end_; proj; try assumption; lia|].
      split; [assumption|]. split; [reflexivity|].
      split; [congruence|]. split; [intros _; lia|].
      intros _ Hnl. apply IndexByte_absent in Hnl. lia.
    + (* an unfinished last line *)
      unfold advance, end_.
      replace (len (data s) <? 0) with false by (symmetry; apply Z.ltb_ge; lia).
      replace (start s + len (data s) - start s <? len (data s))
        with false by (symmetry; apply Z.ltb_ge; lia).
      proj. rewrite He. proj.
      replace (0 <? len (data s)) with true by (symmetry; apply Z.ltb_lt; lia).
      eexists. split; [reflexivity|]. proj.
      assert (Hdrop : drop (Z.to_nat (len (data s))) (data s) = []).
      { unfold len. rewrite Nat2Z.id. apply drop_all. }
      rewrite Hdrop.
      split; [split; proj; unfold end_; proj; try assumption; unfold len in *; cbn [length]; lia|].
      split; [assumption|]. split; [reflexivity|].
      split; [reflexivity|]. split; [intros _; unfold len in *; cbn [length]; lia|].
      intros _ _. split; reflexivity.
Qed.

End AnyReader.
End bufioSpec.

Module fileSpec.
Import bufio bufioSpec.

Lemma read_unfold {R} `{io.ReadCloser R} k (r : R) s :
  read k r s =
    let '(p, e, r') := io.Read r (buf s - end_ s) in
    if buf s - end_ s <? len p then (setErr ErrBadReadCount s, r')
    else
      let s := set_window (buf s) (start s) (data s ++ p) s in
      match e with
      | Some e => (setErr e s, r')
      | None =>
          if 0 <? len p then (set_empties 0 s, r')
          else match k with
               | O => (setErr ErrNoProgress s, r')
               | S k' => read k' r' s
               end
      end.
Proof. destruct k; reflexivity. Qed.

Lemma read_brings_data k (f : file.t) s :
  file.lively f -> file.pending f <> [] -> 0 < buf s - end_ s ->
  exists p rest,
    read k f s =
      (set_empties 0 (set_window (buf s) (start s) (data s ++ p) s),
       file.mk rest (file.ending f) (file.close_error f) (file.closes f))
    /\ 0 < len p <= buf s - end_ s
    /\ p ++ concat rest = concat (file.pending f)
    /\ Forall (fun chunk => chunk <> []) rest.
Proof.
  unfold file.lively. intros Hl Hne Hcap. rewrite read_unfold.
  cbn [io.Read file.ReadCloser]. unfold file.Read.
  destruct (file.pending f) as [|chunk rest] eqn:Hp; [congruence|].
  apply Forall_cons in Hl as [Hchunk Hrest].
  pose proof (len_pos_nonempty _ Hchunk) as Hpos.
  destruct (Z.leb_spec (len chunk) (buf s - end_ s)) as [Hfit|Hbig].
  - exists chunk, rest.
    replace (buf s - end_ s <? len chunk) with false by (symmetry; apply Z.ltb_ge; lia).
    replace (0 <? len chunk) with true by (symmetry; apply Z.ltb_lt; lia).
    split; [reflexivity|]. split; [lia|]. split; [reflexivity|assumption].
  - assert (Hlen : len (take (Z.to_nat (buf s - end_ s)) chunk) = buf s - end_ s).
    { unfold len in *. rewrite length_take. lia. }
    exists (take (Z.to_nat (buf s - end_ s)) chunk),
           (drop (Z.to_nat (buf s - end_ s)) chunk :: rest).
    rewrite Hlen.
    replace (buf s - end_ s <? buf s - end_ s) with false by (symmetry; apply Z.ltb_ge; lia).
    replace (0 <? buf s - end_ s) with true by (symmetry; apply Z.ltb_lt; lia).
    split; [reflexivity|]. split; [lia|]. split.
    + cbn [concat]. rewrite app_assoc, take_drop. reflexivity.
    + apply Forall_cons. split; [|assumption].
      intros Hnil. apply (f_equal length) in Hnil. rewrite length_drop in Hnil.
      unfold len in *. cbn [length] in Hnil. lia.
Qed.

Lemma MaxScanTokenSize_pos : 0 < MaxScanTokenSize.
Proof. reflexivity. Qed.

Lemma half_maxInt : MaxScanTokenSize < maxInt / 2.
Proof. reflexivity. Qed.

(** A turn of the loop that finds no newline in the buffer goes on to
    making room and reading. *)
Lemma turn_no_line {R} `{io.ReadCloser R} (r : R) s :
  wf s -> err s = None -> x0a ∉ data s ->
  turn_of r s = fill r (set_token (if start s <? end_ s then None else token s) s).
Proof.
  intros [Hsplit Hmax Hstart Hend Hbuf Hdone] He Hnl.
  destruct s as [sp mx tk bf st dt er em sc dn]. cbn in *. subst.
  unfold turn_of, end_. proj. rewrite orb_false_r.
  destruct (Z.ltb_spec st (st + len dt)) as [Hlt|Hge]; [|reflexivity].
  rewrite (ScanLines_more _ Hnl). unfold advance, end_. proj.
  replace (0 <? 0) with false by reflexivity.
  replace (st + len dt - st <? 0) with false by (symmetry; apply Z.ltb_ge; lia).
  proj. rewrite Z.add_0_r. reflexivity.
Qed.



(** With room left for the line, the turn reads on. *)
Lemma fill_reads (f : file.t) s :
  wf s -> err s = None -> len (data s) < MaxScanTokenSize ->
  file.lively f -> file.pending f <> [] ->
  exists s' p rest,
    fill f s =
      Again s' (file.mk rest (file.ending f) (file.close_error f) (file.closes f))
    /\ wf s' /\ err s' = None /\ data s' = data s ++ p /\ 0 < len p
    /\ scanCalled s' = scanCalled s
    /\ p ++ concat rest = concat (file.pending f)
    /\ Forall (fun chunk => chunk <> []) rest.
Proof.
  intros [Hsplit Hmax Hstart Hend Hbuf Hdone] He Hroom Hl Hne.
  pose proof half_maxInt as Hhalf.
  destruct s as [sp mx tk bf st dt er em sc dn]. unfold end_ in *. cbn in *. subst.
  unfold fill, end_. proj.
  set (s1 := if (0 <? st) && ((st + len dt =? bf) || (bf / 2 <? st))
             then set_window bf 0 dt
                    (mkScanner ScanLines MaxScanTokenSize tk bf st dt None em sc false)
             else mkScanner ScanLines MaxScanTokenSize tk bf st dt None em sc false).
  assert (Hs1 : exists st1, 0 <= st1 /\ st1 + len dt <= bf
                /\ (st1 + len dt = bf -> st1 = 0)
                /\ s1 = mkScanner ScanLines MaxScanTokenSize tk bf st1 dt None em sc false).
  { subst s1. pose proof (len_pos_nonempty dt) as Hdt.
    destruct (Z.ltb_spec 0 st) as [Hpos|Hzero]; proj.
    - destruct (Z.eqb_spec (st + len dt) bf) as [Hfull|Hnot]; proj.
      + exists 0. repeat split; unfold len in *; lia.
      + destruct (bf / 2 <? st).
        * exists 0. repeat split; unfold len in *; lia.
        * exists st. repeat split; lia.
    - exists st. repeat split; lia. }
  destruct Hs1 as (st1 & H0 & H1 & H2 & ->). proj.
  destruct (Z.eqb_spec (st1 + len dt) bf) as [Hfull|Hnot].
  - specialize (H2 Hfull). subst st1.
    replace (MaxScanTokenSize <=? bf) with false by (symmetry; apply Z.leb_gt; lia).
    replace (maxInt / 2 <? bf) with false by (symmetry; apply Z.ltb_ge; lia).
    proj.
    set (newSize := Z.min (if bf * 2 =? 0 then startBufSize else bf * 2) MaxScanTokenSize).
    assert (Hnew : bf < newSize <= MaxScanTokenSize).
    { subst newSize. unfold startBufSize, MaxScanTokenSize in *.
      destruct (Z.eqb_spec (bf * 2) 0); unfold len in *; lia. }
    destruct (read_brings_data maxConsecutiveEmptyReads f
                (set_window newSize 0 dt
                   (mkScanner ScanLines MaxScanTokenSize tk bf 0 dt None em sc false)))
      as (p & rest & Hread & Hp & Hcat & Hrest); [assumption..| |].
    { unfold end_. proj. lia. }
    rewrite Hread. unfold end_ in Hp. revert Hp. proj. intros Hp.
    eexists _, p, rest. split; [reflexivity|]. proj.
    split; [split; proj; unfold end_; proj; try reflexivity; rewrite ?len_app; lia|].
    repeat split; try reflexivity; try assumption; lia.
  - destruct (read_brings_data maxConsecutiveEmptyReads f
                (mkScanner ScanLines MaxScanTokenSize tk bf st1 dt None em sc false))
      as (p & rest & Hread & Hp & Hcat & Hrest); [assumption..| |].
    { unfold end_. proj. lia. }
    rewrite Hread. unfold end_ in Hp. revert Hp. proj. intros Hp.
    eexists _, p, rest. split; [reflexivity|]. proj.
    split; [split; proj; unfold end_; proj; try reflexivity; rewrite ?len_app; lia|].
    repeat split; try reflexivity; try assumption; lia.
Qed.


Lemma set_token_wf t s : wf s -> wf (set_token t s).
Proof. intros []; split; assumption. Qed.

Lemma wf_len_data s : wf s -> len (data s) <= MaxScanTokenSize.
Proof. intros []. unfold end_, len in *. lia. Qed.




End fileSpec.

(** ** Every call of [Scan] keeps the scanner and its reader in order *)
Module scanInvariant.
Import bufio bufioSpec fileSpec.

Lemma ScanLines_shape data atEOF :
  exists adv tok, ScanLines data atEOF = (adv, tok, None) /\ 0 <= adv <= len data.
Proof.
  pose proof (IndexByte_bounds data x0a) as Hidx. pose proof (len_nonneg data) as H0.
  unfold ScanLines.
  destruct (atEOF && (len data =? 0)); [eexists _, _; split; [reflexivity|lia]|].
  destruct (Z.leb_spec 0 (IndexByte data x0a)); [eexists _, _; split; [reflexivity|lia]|].
  destruct atEOF; eexists _, _; (split; [reflexivity|lia]).
Qed.

Lemma setErr_wf e s : wf s -> wf (setErr e s).
Proof. intros Hwf. unfold setErr. destruct Hwf. destruct (err s) as [[]|]; split; assumption. Qed.

Lemma set_empties_wf n s : wf s -> wf (set_empties n s).
Proof. intros []; split; assumption. Qed.

Section AnyReader.
Context {R : Type} `{io.ReadCloser R}.
(** What is known of the reader and kept by its [Read]. *)
Context (P : R -> Prop) (Read_P : forall r n, P r -> P (io.Read r n).2).

Lemma read_inv k (r : R) s :
  wf s -> P r -> wf (read k r s).1 /\ P (read k r s).2.
Proof.
  revert r s. induction k as [|k IH]; intros r s Hwf HP; rewrite read_unfold;
    pose proof (Read_P r (buf s - end_ s) HP) as HP';
    destruct (io.Read r (buf s - end_ s)) as [[p e] r']; cbn [snd] in HP';
    (destruct (Z.ltb_spec (buf s - end_ s) (len p)) as [Hbad|Hok];
      [cbn [fst snd]; split; [apply setErr_wf|]; assumption|]);
    (assert (Hwf1 : wf (set_window (buf s) (start s) (data s ++ p) s))
      by (destruct Hwf; split; proj; unfold end_ in *; proj; rewrite ?len_app;
          try assumption; lia));
    (destruct e as [e|]; [cbn [fst snd]; split; [apply setErr_wf|]; assumption|]);
    (destruct (0 <? len p); [cbn [fst snd]; split; [apply set_empties_wf|]; assumption|]).
  - cbn [fst snd]. split; [apply setErr_wf|]; assumption.
  - apply IH; assumption.
Qed.

Lemma fill_inv (r : R) s :
  wf s -> P r ->
  match fill r s with Exit _ s' r' | Again s' r' => wf s' /\ P r' end.
Proof.
  intros Hwf HP. pose proof half_maxInt as Hhalf. unfold fill.
  destruct (err s) eqn:He; proj.
  { split; [|exact HP]. destruct Hwf. split; proj; unfold end_, len in *; proj;
      cbn [length]; try assumption; lia. }
  set (s1 := if (0 <? start s) && ((end_ s =? buf s) || (buf s / 2 <? start s))
             then set_window (buf s) 0 (data s) s else s).
  assert (Hs1 : wf s1 /\ (end_ s1 = buf s1 -> start s1 = 0)).
  { subst s1. destruct Hwf as [Hsplit Hmax Hstart Hend Hbuf Hdone].
    pose proof (len_nonneg (data s)) as H0. unfold end_ in *.
    destruct (Z.ltb_spec 0 (start s)) as [Hpos|Hzero]; proj.
    - destruct (Z.eqb_spec (start s + len (data s)) (buf s)) as [Hfull|Hnot]; proj.
      + split; [split; proj; unfold end_; proj; try assumption; lia|]. reflexivity.
      + destruct (buf s / 2 <? start s).
        * split; [split; proj; unfold end_; proj; try assumption; lia|]. reflexivity.
        * split; [split; unfold end_; try assumption; lia|]. intros; lia.
    - split; [split; unfold end_; try assumption; lia|]. intros; lia. }
  destruct Hs1 as [Hwf1 Hstart1]. clearbody s1.
  destruct (Z.eqb_spec (end_ s1) (buf s1)) as [Hfull|Hnot].
  - destruct ((maxTokenSize s1 <=? buf s1) || (maxInt / 2 <? buf s1)) eqn:Hbig.
    + split; [apply setErr_wf|]; assumption.
    + apply orb_false_iff in Hbig as [Hbig _]. apply Z.leb_gt in Hbig.
      set (newSize := Z.min (if buf s1 * 2 =? 0 then startBufSize else buf s1 * 2)
                        (maxTokenSize s1)).
      assert (Hwf2 : wf (set_window newSize 0 (data s1) s1)).
      { specialize (Hstart1 Hfull). destruct Hwf1 as [Hsplit Hmax Hstart Hend Hbuf Hdone].
        pose proof (len_nonneg (data s1)) as H0. unfold end_ in *.
        assert (Hnew : buf s1 < newSize <= MaxScanTokenSize).
        { subst newSize. rewrite Hmax in Hbig |- *.
          unfold startBufSize, MaxScanTokenSize in *.
          destruct (Z.eqb_spec (buf s1 * 2) 0); lia. }
        clearbody newSize.
        split; proj; unfold end_; proj; try assumption; lia. }
      pose proof (read_inv maxConsecutiveEmptyReads r _ Hwf2 HP) as Hread.
      destruct (read maxConsecutiveEmptyReads r (set_window newSize 0 (data s1) s1)).
      exact Hread.
  - pose proof (read_inv maxConsecutiveEmptyReads r _ Hwf1 HP) as Hread.
    destruct (read maxConsecutiveEmptyReads r s1). exact Hread.
Qed.


Lemma turn_inv (r : R) s :
  wf s -> P r ->
  match turn_of r s with Exit _ s' r' | Again s' r' => wf s' /\ P r' end.
Proof.
  intros Hwf HP. unfold turn_of.
  destruct ((start s <? end_ s) || not_nil (err s)); [|apply fill_inv; assumption].
  rewrite (wf_split s Hwf).
  destruct (ScanLines_shape (data s) (not_nil (err s))) as (adv & tok & -> & Hadv).
  unfold advance, end_.
  replace (adv <? 0) with false by (symmetry; apply Z.ltb_ge; lia).
  replace (start s + len (data s) - start s <? adv) with false
    by (symmetry; apply Z.ltb_ge; lia).
  proj.
  assert (Hwf2 : wf (set_token tok
                       (set_window (buf s) (start s + adv)
                          (drop (Z.to_nat adv) (data s)) s))).
  { destruct Hwf. split; proj; unfold end_, len in *; proj; rewrite ?length_drop;
      try assumption; lia. }
  destruct tok as [tok|]; proj; [|apply fill_inv; assumption].
  destruct (negb (not_nil (err s)) || (0 <? adv)).
  - split; [apply set_empties_wf|]; assumption.
  - destruct (Z.of_nat maxConsecutiveEmptyReads <? empties s + 1);
      (split; [apply set_empties_wf|]; assumption).
Qed.

Lemma loop_inv fuel (r : R) s e s' r' :
  wf s -> P r -> loop fuel r s = Some (e, s', r') -> wf s' /\ P r'.
Proof.
  revert r s. induction fuel as [|fuel IH]; intros r s Hwf HP; cbn [loop]; [discriminate|].
  pose proof (turn_inv r s Hwf HP) as Hturn.
  destruct (turn_of r s) as [e1 s1 r1|s1 r1]; destruct Hturn as [Hwf1 HP1].
  - intros [= <- <- <-]. split; assumption.
  - apply IH; assumption.
Qed.

Lemma Scan_inv fuel (r : R) s e s' r' :
  wf s -> P r -> Scan fuel r s = Some (e, s', r') -> wf s' /\ P r'.
Proof.
  intros Hwf HP. unfold Scan. rewrite (wf_done s Hwf).
  apply loop_inv; [apply set_scanCalled_wf|]; assumption.
Qed.

(** After an error a call of [Scan] is one turn of the loop. *)
Lemma Scan_after_error fuel (r : R) s e :
  wf s -> err s = Some e ->
  exists s',
    Scan (S fuel) r s = Some (Return (negb (len (data s) =? 0)), s', r)
    /\ wf s' /\ err s' = Some e
    /\ (data s = [] -> data s' = [])
    /\ (data s <> [] -> len (data s') < len (data s))
    /\ (data s <> [] -> x0a ∉ data s ->
        data s' = [] /\ token s' = Some (dropCR (data s))).
Proof.
  intros Hwf He. unfold Scan. rewrite (wf_done s Hwf). cbn [loop].
  destruct (turn_after_error r (set_scanCalled true s) e) as
    (s' & -> & Hwf' & He' & _ & Hnil & Hless & Hrest);
    [apply set_scanCalled_wf; exact Hwf|exact He|].
  revert Hnil Hless Hrest. proj. intros Hnil Hless Hrest.
  exists s'. split; [reflexivity|]. split; [exact Hwf'|]. split; [exact He'|].
  split; [exact Hnil|]. split; [exact Hless|exact Hrest].
Qed.

End AnyReader.

Lemma Read_lively (f : file.t) n : file.lively f -> file.lively (io.Read f n).2.
Proof.
  unfold file.lively. cbn [io.Read file.ReadCloser]. unfold file.Read. intros Hl.
  destruct (file.pending f) as [|chunk rest] eqn:Hp; [cbn [snd]; now rewrite Hp|].
  apply Forall_cons in Hl as [Hchunk Hrest].
  destruct (Z.leb_spec (len chunk) n) as [Hfit|Hbig]; cbn [snd file.pending]; [assumption|].
  apply Forall_cons. split; [|assumption].
  pose proof (len_pos_nonempty _ Hchunk) as Hpos.
  intros Hnil. apply (f_equal length) in Hnil. rewrite length_drop in Hnil.
  unfold len in *. cbn [length] in Hnil. lia.
Qed.

End scanInvariant.

Module scannerIterSpec.
Import bufio bufioSpec fileSpec scanInvariant scannerIter.

Section AnyResource.
Context {R : Type} `{io.ReadCloser R}.

(** C8: [Close()] returns what the resource's own [Close] returns and
    leaves the resource as that call left it; the scanner, with whatever
    error it holds, plays no part and is not touched. *)
Theorem Close_delegates (i : t R) :
  (Close i).1 = (io.Close (c i)).1
  /\ c (Close i).2 = (io.Close (c i)).2
  /\ scanner (Close i).2 = scanner i
  /\ (forall s : Scanner, (Close (mk (c i) s)).1 = (Close i).1)
  /\ (forall s : Scanner, c (Close (mk (c i) s)).2 = c (Close i).2).
Proof.
  unfold Close. cbn [c scanner]. destruct (io.Close (c i)) as [e r].
  repeat split.
Qed.

Lemma Next_after_error fuel (i : t R) e :
  wf (scanner i) -> err (scanner i) = Some e ->
  exists s',
    Next (S fuel) i = Some (Return (negb (len (data (scanner i)) =? 0)), mk (c i) s')
    /\ wf s' /\ err s' = Some e
    /\ (data (scanner i) = [] -> data s' = [])
    /\ (data (scanner i) <> [] -> x0a ∉ data (scanner i) ->
        data s' = [] /\ token s' = Some (dropCR (data (scanner i)))).
Proof.
  intros Hwf He. unfold Next.
  destruct (Scan_after_error fuel (c i) (scanner i) e Hwf He)
    as (s' & -> & Hwf' & He' & Hnil & _ & Hrest).
  exists s'. split; [reflexivity|]. split; [exact Hwf'|]. split; [exact He'|].
  split; [exact Hnil|exact Hrest].
Qed.

(** With an error recorded and the buffer empty, [Next()] returns false
    for good and changes nothing the consumer can see. *)
Lemma Nexts_after_drain fuel n (i : t R) e :
  wf (scanner i) -> err (scanner i) = Some e -> data (scanner i) = [] ->
  exists i',
    play (S fuel) (replicate n CallNext) i = Some (replicate n (RNext (Return false)), i')
    /\ c i' = c i /\ err (scanner i') = Some e.
Proof.
  revert i. induction n as [|n IH]; intros i Hwf He Hd; cbn [replicate play exec].
  - exists i. split; [reflexivity|]. split; [reflexivity|exact He].
  - destruct (Next_after_error fuel i e Hwf He) as (s' & -> & Hwf' & He' & Hnil & _).
    rewrite Hd. cbn [len length Z.of_nat Z.eqb negb].
    destruct (IH (mk (c i) s')) as (i' & -> & Hc & He''); cbn [scanner c]; auto.
    exists i'. split; [reflexivity|]. split; assumption.
Qed.


(** More fuel changes no result. *)
Lemma loop_mono fuel k (r : R) s x :
  loop fuel r s = Some x -> loop (fuel + k) r s = Some x.
Proof.
  revert r s. induction fuel as [|fuel IH]; intros r s; cbn [loop Nat.add]; [discriminate|].
  destruct (turn_of r s); [trivial|apply IH].
Qed.

Lemma Next_mono fuel k (i : t R) x :
  Next fuel i = Some x -> Next (fuel + k) i = Some x.
Proof.
  unfold Next, Scan. destruct (done (scanner i)); [trivial|].
  destruct (loop fuel (c i) (set_scanCalled true (scanner i))) as [y|] eqn:E; [|discriminate].
  rewrite (loop_mono _ k _ _ _ E). trivial.
Qed.

Lemma play_mono fuel k cs (i : t R) x :
  play fuel cs i = Some x -> play (fuel + k) cs i = Some x.
Proof.
  revert i x. induction cs as [|c0 cs IH]; intros i x; cbn [play]; [trivial|].
  assert (Hexec : forall y, exec fuel c0 i = Some y -> exec (fuel + k) c0 i = Some y).
  { destruct c0; cbn [exec]; trivial.
    destruct (Next fuel i) as [[e i']|] eqn:E; [|discriminate].
    rewrite (Next_mono _ k _ _ E). trivial. }
  destruct (exec fuel c0 i) as [[r0 i']|]; [|discriminate].
  rewrite (Hexec _ eq_refl).
  destruct (play fuel cs i') as [[rs i'']|] eqn:E; [|discriminate].
  rewrite (IH _ _ E). trivial.
Qed.

Lemma play_enough fuel0 fuel cs (i : t R) x :
  (fuel0 <= fuel)%nat -> play fuel0 cs i = Some x -> play fuel cs i = Some x.
Proof.
  intros Hle Hp. replace fuel with (fuel0 + (fuel - fuel0))%nat by lia.
  now apply play_mono.
Qed.

(** Whatever the consumer calls, the scanner stays in order, and so does
    what is known of the resource as long as reading and closing keep it. *)
Lemma play_inv (P : R -> Prop)
    (Read_P : forall r n, P r -> P (io.Read r n).2)
    (Close_P : forall r, P r -> P (io.Close r).2) fuel cs (i : t R) rs i' :
  wf (scanner i) -> P (c i) -> play fuel cs i = Some (rs, i') ->
  wf (scanner i') /\ P (c i').
Proof.
  revert i rs. induction cs as [|c0 cs IH]; intros i rs Hwf HP; cbn [play].
  { intros [= <- <-]. split; assumption. }
  assert (Hexec : forall r0 i0, exec fuel c0 i = Some (r0, i0) ->
                    wf (scanner i0) /\ P (c i0)).
  { destruct c0; cbn [exec]; try (intros r0 i0 [= <- <-]; split; assumption).
    - unfold Next. intros r0 i0.
      destruct (Scan fuel (c i) (scanner i)) as [[[e s1] r1]|] eqn:E; [|discriminate].
      intros [= <- <-]. cbn [scanner c].
      exact (Scan_inv P Read_P fuel (c i) (scanner i) e s1 r1 Hwf HP E).
    - unfold Close. intros r0 i0. pose proof (Close_P (c i) HP) as HP'.
      destruct (io.Close (c i)) as [e r1]. intros [= <- <-]. split; assumption. }
  destruct (exec fuel c0 i) as [[r0 i0]|]; [|discriminate].
  destruct (Hexec _ _ eq_refl) as [Hwf0 HP0].
  destruct (play fuel cs i0) as [[rs0 i1]|] eqn:E; [|discriminate].
  intros [= <- <-]. exact (IH _ _ Hwf0 HP0 E).
Qed.

End AnyResource.

Lemma reachable fuel cs (f : file.t) rs i :
  file.lively f -> play fuel cs (new f) = Some (rs, i) ->
  wf (scanner i) /\ file.lively (c i).
Proof.
  intros Hl. apply (play_inv file.lively); [exact Read_lively| |exact NewScanner_wf|exact Hl].
  intros r Hr. exact Hr.
Qed.




End scannerIterSpec.

Module scannerIterExamples.
Import bufio bufioSpec fileSpec scanInvariant scannerIter scannerIterSpec.






Lemma plenty_enough : (Z.to_nat MaxScanTokenSize < plenty)%nat.
Proof. unfold plenty. apply Nat.lt_succ_diag_r. Qed.



(** [cuts] misses no way of cutting. *)
Lemma cuts_complete (pieces : list (list byte)) :
  Forall (fun piece => piece <> []) pieces ->
  pieces ∈ file.cuts (concat pieces).
Proof.
  induction pieces as [|piece pieces IH]; intros Hne.
  { cbn. apply list_elem_of_singleton. reflexivity. }
  apply Forall_cons in Hne as [Hpiece Hrest]. specialize (IH Hrest).
  destruct piece as [|x piece]; [congruence|]. clear Hpiece.
  revert x. induction piece as [|y piece IHp]; intros x.
  - cbn [concat app]. destruct pieces as [|p2 pieces].
    + cbn. apply list_elem_of_singleton. reflexivity.
    + apply Forall_cons in Hrest as [Hp2 _].
      destruct (concat (p2 :: pieces)) as [|z zs] eqn:Hc.
      { cbn [concat] in Hc. apply app_eq_nil in Hc as [Hc _]. congruence. }
      cbn [file.cuts]. apply list_elem_of_In, in_flat_map.
      exists (p2 :: pieces). split; [apply list_elem_of_In; exact IH|].
      left. reflexivity.
  - specialize (IHp y). cbn [concat app] in IHp |- *.
    cbn [file.cuts]. apply list_elem_of_In, in_flat_map.
    exists ((y :: piece) :: pieces). split; [apply list_elem_of_In; exact IHp|].
    right. left. reflexivity.
Qed.

End scannerIterExamples.

Module scannerIterLines.
Import bufio bufioSpec fileSpec scanInvariant scannerIter scannerIterSpec
  scannerIterExamples.
Lemma a_b_c_by_cuts :
  Forall (fun pieces => forall ce,
            outcome (play 3 read_three (new (sound_file pieces ce)))
            = Some (three_lines, Some EOF, []))
         (file.cuts a_b_c).
Proof.
  let l := eval vm_compute in (file.cuts a_b_c) in change (file.cuts a_b_c) with l.
  repeat (apply Forall_cons; split; [intros ce; vm_compute; reflexivity|]).
  apply Forall_nil. exact I.
Qed.

Lemma a_b_by_cuts :
  Forall (fun pieces => forall ce,
            outcome (play 3 read_two (new (sound_file pieces ce)))
            = Some (two_lines, Some EOF, []))
         (file.cuts a_b_).
Proof.
  let l := eval vm_compute in (file.cuts a_b_) in change (file.cuts a_b_) with l.
  repeat (apply Forall_cons; split; [intros ce; vm_compute; reflexivity|]).
  apply Forall_nil. exact I.
Qed.

(** Reading a sound file to its end, whatever pieces the reads bring:
    the session returns what it returns for every way of cutting the
    content, and every [Next()] after it returns false with no error. *)
Lemma session_by_cuts content cs rs :
  Forall (fun pieces => forall ce,
            outcome (play 3 cs (new (sound_file pieces ce))) = Some (rs, Some EOF, []))
         (file.cuts content) ->
  forall pieces ce fuel,
    Forall (fun piece => piece <> []) pieces -> concat pieces = content ->
    (3 <= fuel)%nat ->
    exists i,
      play fuel cs (new (sound_file pieces ce)) = Some (rs, i)
      /\ forall n, exists i',
           play fuel (replicate n CallNext) i
             = Some (replicate n (RNext (Return false)), i')
           /\ Err i' = None.
Proof.
  intros Hall pieces ce fuel Hne Hcat Hfuel.
  pose proof (cuts_complete pieces Hne) as Hin. rewrite Hcat in Hin.
  pose proof (proj1 (Forall_forall _ _) Hall pieces Hin ce) as Hout.
  destruct (play 3 cs (new (sound_file pieces ce))) as [[rs0 i]|] eqn:Hplay;
    [|discriminate].
  cbn [outcome] in Hout. injection Hout as -> He Hd.
  destruct (reachable 3 cs (sound_file pieces ce) rs i Hne Hplay) as [Hwf _].
  exists i. split; [exact (play_enough 3 fuel _ _ _ Hfuel Hplay)|].
  intros n. destruct fuel as [|fuel]; [lia|].
  destruct (Nexts_after_drain fuel n i EOF Hwf He Hd) as (i' & Hn & _ & He').
  exists i'. split; [exact Hn|]. unfold Err, bufio.Err. now rewrite He'.
Qed.

(** C9: over ["a\nb\nc"] three [Next()] return true with the items "a",
    "b", "c" in order, the fourth returns false and [Err()] is nil; over
    ["a\nb\n"] the items are "a" and "b" and the third [Next()] returns
    false: no empty third item. Both hold however the reads cut the
    content, and every later [Next()] returns false as well. *)
Theorem lines_in_order pieces pieces' ce ce' fuel :
  Forall (fun piece => piece <> []) pieces -> concat pieces = a_b_c ->
  Forall (fun piece => piece <> []) pieces' -> concat pieces' = a_b_ ->
  (3 <= fuel)%nat ->
  (exists i,
     play fuel read_three (new (sound_file pieces ce)) = Some (three_lines, i)
     /\ forall n, exists i',
          play fuel (replicate n CallNext) i
            = Some (replicate n (RNext (Return false)), i')
          /\ Err i' = None)
  /\ (exists i,
        play fuel read_two (new (sound_file pieces' ce')) = Some (two_lines, i)
        /\ forall n, exists i',
             play fuel (replicate n CallNext) i
               = Some (replicate n (RNext (Return false)), i')
             /\ Err i' = None).
Proof.
  intros Hne Hcat Hne' Hcat' Hfuel. split.
  - exact (session_by_cuts a_b_c read_three three_lines a_b_c_by_cuts
             pieces ce fuel Hne Hcat Hfuel).
  - exact (session_by_cuts a_b_ read_two two_lines a_b_by_cuts
             pieces' ce' fuel Hne' Hcat' Hfuel).
Qed.

Lemma whole_nonempty : Forall (fun piece : list byte => piece <> []) [a_b_c].
Proof. repeat constructor. discriminate. Defined.

Lemma halves_nonempty :
  Forall (fun piece : list byte => piece <> []) [[x61; x0a]; [x62; x0a]].
Proof. repeat constructor; discriminate. Defined.

Lemma lines_in_order_witness :
  Forall (fun piece : list byte => piece <> []) [a_b_c]
  /\ concat [a_b_c] = a_b_c
  /\ Forall (fun piece : list byte => piece <> []) [[x61; x0a]; [x62; x0a]]
  /\ concat [[x61; x0a]; [x62; x0a]] = a_b_
  /\ (3 <= 3)%nat
  /\ ((exists i,
         play 3 read_three (new (sound_file [a_b_c] None)) = Some (three_lines, i)
         /\ forall n, exists i',
              play 3 (replicate n CallNext) i
                = Some (replicate n (RNext (Return false)), i')
              /\ Err i' = None)
      /\ (exists i,
            play 3 read_two (new (sound_file [[x61; x0a]; [x62; x0a]] (Some (ErrOther 1))))
              = Some (two_lines, i)
            /\ forall n, exists i',
                 play 3 (replicate n CallNext) i
                   = Some (replicate n (RNext (Return false)), i')
                 /\ Err i' = None)).
Proof.
  split; [exact whole_nonempty|]. split; [reflexivity|].
  split; [exact halves_nonempty|]. split; [reflexivity|]. split; [exact (le_n 3)|].
  exact (lines_in_order [a_b_c] [[x61; x0a]; [x62; x0a]] None (Some (ErrOther 1)) 3
           whole_nonempty eq_refl halves_nonempty eq_refl (le_n 3)).
Defined.


End scannerIterLines.

(** ** scannerIter: reading a file line by line *)
Module scannerIterReading.
Import bufio bufioSpec fileSpec scanInvariant scannerIter scannerIterSpec.

Lemma IndexByte_first line more :
  x0a ∉ line -> IndexByte (line ++ x0a :: more) x0a = len line.
Proof.
  induction line as [|x line IH]; intros Hn; cbn [IndexByte app]; [reflexivity|].
  apply not_elem_of_cons in Hn as [Hx Hl].
  destruct (Byte.eqb x x0a) eqn:E.
  - apply Byte.byte_dec_bl in E. congruence.
  - rewrite (IH Hl). pose proof (len_nonneg line) as H0.
    destruct (Z.ltb_spec (len line) 0); [lia|]. unfold len. cbn [length]. lia.
Qed.

(** Where a buffer that is a prefix of the input stands against the first
    newline of the input: past it, or before it. *)
Lemma line_or_prefix (d q line rest : list byte) :
  d ++ q = line ++ x0a :: rest -> x0a ∉ line ->
  (exists more, d = line ++ x0a :: more /\ rest = more ++ q)
  \/ ((x0a ∉ d) /\ exists k, line = d ++ k /\ q = k ++ x0a :: rest).
Proof.
  revert d. induction line as [|x line IH]; intros d Hcat Hn.
  - destruct d as [|y d].
    + right. split; [apply not_elem_of_nil|]. exists []. split; [reflexivity|exact Hcat].
    + left. cbn [app] in Hcat. injection Hcat as -> Hrest. exists d.
      split; [reflexivity|now symmetry].
  - apply not_elem_of_cons in Hn as [Hx Hl]. destruct d as [|y d].
    + right. split; [apply not_elem_of_nil|]. exists (x :: line). split; [reflexivity|exact Hcat].
    + cbn [app] in Hcat. injection Hcat as -> Hrest.
      destruct (IH d Hrest Hl) as [(more & -> & ->)|(Hd & k & -> & ->)].
      * left. exists more. split; reflexivity.
      * right. split; [apply not_elem_of_cons; split; assumption|].
        exists k. split; reflexivity.
Qed.

Section AnyReader.
Context {R : Type} `{io.ReadCloser R}.

(** With a whole line in the buffer, a turn of the loop hands it out and
    leaves the reader alone. *)
Lemma turn_line (r : R) s line more :
  wf s -> err s = None -> data s = line ++ x0a :: more -> x0a ∉ line ->
  exists s',
    turn_of r s = Exit (Return true) s' r
    /\ wf s' /\ err s' = None /\ token s' = Some (dropCR line)
    /\ data s' = more /\ scanCalled s' = scanCalled s.
Proof.
  intros [Hsplit Hmax Hstart Hend Hbuf Hdone] He Hd Hn.
  destruct s as [sp mx tk bf st dt er em sc dn]. unfold end_ in *. cbn in *. subst.
  pose proof (len_nonneg line) as H0. pose proof (len_nonneg more) as H1.
  assert (Hlen : len (line ++ x0a :: more) = len line + 1 + len more).
  { rewrite len_app. unfold len. cbn [length]. lia. }
  unfold turn_of, end_. proj. rewrite orb_false_r.
  replace (st <? st + len (line ++ x0a :: more)) with true
    by (symmetry; apply Z.ltb_lt; lia).
  unfold ScanLines. cbn [andb]. rewrite (IndexByte_first _ _ Hn).
  replace (0 <=? len line) with true by (symmetry; apply Z.leb_le; lia).
  unfold advance, end_. proj.
  replace (len line + 1 <? 0) with false by (symmetry; apply Z.ltb_ge; lia).
  replace (st + len (line ++ x0a :: more) - st <? len line + 1) with false
    by (symmetry; apply Z.ltb_ge; lia).
  proj.
  assert (Htake : take (Z.to_nat (len line)) (line ++ x0a :: more) = line).
  { unfold len. rewrite Nat2Z.id. apply take_app_length. }
  assert (Hdrop : drop (Z.to_nat (len line + 1)) (line ++ x0a :: more) = more).
  { replace (Z.to_nat (len line + 1)) with (S (length line)) by (unfold len; lia).
    replace (line ++ x0a :: more) with ((line ++ [x0a]) ++ more)
      by (now rewrite <- app_assoc).
    apply drop_app_length'. rewrite length_app. cbn [length]. lia. }
  rewrite Htake, Hdrop.
  eexists. split; [reflexivity|]. proj.
  split; [split; proj; unfold end_; proj; try reflexivity; lia|].
  repeat split; reflexivity.
Qed.

(** With no error so far and room left for the token, the second half of
    a turn makes room in the buffer and reads. *)
Lemma fill_room (r : R) s :
  wf s -> err s = None -> len (data s) < MaxScanTokenSize ->
  exists b st,
    wf (set_window b st (data s) s)
    /\ 0 < b - (st + len (data s))
    /\ fill r s =
         (let (s', r') := read maxConsecutiveEmptyReads r (set_window b st (data s) s)
          in Again s' r').
Proof.
  intros [Hsplit Hmax Hstart Hend Hbuf Hdone] He Hroom.
  pose proof half_maxInt as Hhalf.
  destruct s as [sp mx tk bf st dt er em sc dn]. unfold end_ in *.
  cbn in Hsplit, Hmax, Hstart, Hend, Hbuf, Hdone, He, Hroom. subst. proj.
  pose proof (len_nonneg dt) as Hdt.
  unfold fill, end_. proj.
  set (s1 := if (0 <? st) && ((st + len dt =? bf) || (bf / 2 <? st))
             then set_window bf 0 dt
                    (mkScanner ScanLines MaxScanTokenSize tk bf st dt None em sc false)
             else mkScanner ScanLines MaxScanTokenSize tk bf st dt None em sc false).
  assert (Hs1 : exists st1, 0 <= st1 /\ st1 + len dt <= bf
                /\ (st1 + len dt = bf -> st1 = 0)
                /\ s1 = mkScanner ScanLines MaxScanTokenSize tk bf st1 dt None em sc false).
  { subst s1.
    destruct (Z.ltb_spec 0 st) as [Hpos|Hzero]; proj.
    - destruct (Z.eqb_spec (st + len dt) bf) as [Hfull|Hnot]; proj.
      + exists 0. repeat split; lia.
      + destruct (bf / 2 <? st).
        * exists 0. repeat split; lia.
        * exists st. repeat split; lia.
    - exists st. repeat split; lia. }
  destruct Hs1 as (st1 & H0 & H1 & H2 & ->). proj.
  destruct (Z.eqb_spec (st1 + len dt) bf) as [Hfull|Hnot].
  - specialize (H2 Hfull). subst st1.
    replace (MaxScanTokenSize <=? bf) with false by (symmetry; apply Z.leb_gt; lia).
    replace (maxInt / 2 <? bf) with false by (symmetry; apply Z.ltb_ge; lia).
    proj.
    set (newSize := Z.min (if bf * 2 =? 0 then startBufSize else bf * 2) MaxScanTokenSize).
    assert (Hnew : bf < newSize <= MaxScanTokenSize).
    { subst newSize. unfold startBufSize, MaxScanTokenSize in *.
      destruct (Z.eqb_spec (bf * 2) 0); lia. }
    exists newSize, 0. proj.
    split; [split; proj; unfold end_; proj; try reflexivity; lia|].
    split; [lia|reflexivity].
  - exists bf, st1. proj.
    split; [split; proj; unfold end_; proj; try reflexivity; lia|].
    split; [lia|reflexivity].
Qed.

(** A token of [ScanLines] moves the scanner on and holds no newline. *)
Lemma IndexByte_take b c :
  0 <= IndexByte b c -> c ∉ take (Z.to_nat (IndexByte b c)) b.
Proof.
  induction b as [|x b IH]; cbn [IndexByte]; [lia|].
  destruct (Byte.eqb x c) eqn:E; [intros _; apply not_elem_of_nil|].
  destruct (Z.ltb_spec (IndexByte b c) 0) as [Hneg|Hpos]; [lia|]. intros _.
  replace (Z.to_nat (IndexByte b c + 1)) with (S (Z.to_nat (IndexByte b c))) by lia.
  cbn [take]. apply not_elem_of_cons. split; [|apply IH; exact Hpos].
  intros ->. rewrite (Byte.byte_dec_lb eq_refl) in E. discriminate.
Qed.

Lemma dropCR_sub (x : byte) data : x ∈ dropCR data -> x ∈ data.
Proof.
  unfold dropCR. destruct (last data) as [[]|]; trivial.
  intros Hin. rewrite <- (take_drop (length data - 1) data).
  apply elem_of_app. now left.
Qed.

Lemma ScanLines_token data atEOF adv tok :
  ScanLines data atEOF = (adv, Some tok, None) -> 0 < adv /\ x0a ∉ tok.
Proof.
  unfold ScanLines. destruct (atEOF && (len data =? 0)) eqn:E0; [discriminate|].
  destruct (Z.leb_spec 0 (IndexByte data x0a)) as [Hfound|Hnone].
  - intros [= <- <-]. split; [lia|]. intros Hin. apply dropCR_sub in Hin.
    exact (IndexByte_take _ _ Hfound Hin).
  - destruct atEOF; [|discriminate]. intros [= <- <-].
    cbn [andb] in E0. apply Z.eqb_neq in E0. pose proof (len_nonneg data).
    split; [lia|]. intros Hin. apply dropCR_sub, IndexByte_present in Hin. lia.
Qed.

Lemma ScanLines_no_token data atEOF adv :
  ScanLines data atEOF = (adv, None, None) -> adv = 0.
Proof.
  unfold ScanLines. destruct (atEOF && (len data =? 0)); [now intros [= <-]|].
  destruct (0 <=? IndexByte data x0a); [discriminate|].
  destruct atEOF; [discriminate|now intros [= <-]].
Qed.

(** The second half of a turn ends the call with false only, and leaves
    the token alone. *)
Lemma fill_exit (r : R) s e s' r' :
  fill r s = Exit e s' r' -> e = Return false /\ token s' = token s.
Proof.
  unfold fill. destruct (not_nil (err s)); [now intros [= <- <- <-]|].
  set (s1 := if (0 <? start s) && ((end_ s =? buf s) || (buf s / 2 <? start s))
             then set_window (buf s) 0 (data s) s else s).
  assert (Htok : token s1 = token s)
    by (subst s1; now destruct ((0 <? start s) && _)).
  clearbody s1.
  destruct (end_ s1 =? buf s1).
  - destruct ((maxTokenSize s1 <=? buf s1) || (maxInt / 2 <? buf s1)).
    + intros [= <- <- <-]. split; [reflexivity|]. rewrite <- Htok.
      unfold setErr. now destruct (err s1) as [[]|].
    + now destruct (read _ _ _).
  - now destruct (read _ _ _).
Qed.

(** A read ends with an error recorded or with more data in the buffer. *)
Lemma read_progress k (r : R) s :
  err s = None ->
  err (read k r s).1 <> None \/ len (data s) < len (data (read k r s).1).
Proof.
  revert r s. induction k as [|k IH]; intros r s He; rewrite read_unfold;
    destruct (io.Read r (buf s - end_ s)) as [[p e] r'];
    (destruct (buf s - end_ s <? len p);
     [left; unfold setErr; rewrite He; discriminate|]);
    (destruct e as [e|]; [left; unfold setErr; proj; rewrite He; discriminate|]);
    (destruct (Z.ltb_spec 0 (len p)) as [Hp|Hp];
     [right; cbn [fst]; proj; rewrite len_app; lia|]).
  - left. unfold setErr. proj. rewrite He. discriminate.
  - destruct (IH r' (set_window (buf s) (start s) (data s ++ p) s) He) as [Herr|Hlen];
      [now left|right].
    revert Hlen. proj. rewrite len_app. pose proof (len_nonneg p). lia.
Qed.

Lemma fill_progress (r : R) s s' r' :
  fill r s = Again s' r' -> err s' <> None \/ len (data s) < len (data s').
Proof.
  unfold fill. destruct (err s) eqn:He; proj; [discriminate|].
  set (s1 := if (0 <? start s) && ((end_ s =? buf s) || (buf s / 2 <? start s))
             then set_window (buf s) 0 (data s) s else s).
  assert (Hs1 : err s1 = None /\ data s1 = data s)
    by (subst s1; now destruct ((0 <? start s) && _)).
  destruct Hs1 as [He1 Hd1]. clearbody s1. rewrite <- Hd1.
  destruct (end_ s1 =? buf s1).
  - destruct ((maxTokenSize s1 <=? buf s1) || (maxInt / 2 <? buf s1)); [discriminate|].
    match goal with |- context [read ?k r ?s2] =>
      pose proof (read_progress k r s2 He1) as Hread; revert Hread;
      destruct (read k r s2) as [s3 r3] end.
    proj. now intros Hread [= <- <-].
  - pose proof (read_progress maxConsecutiveEmptyReads r s1 He1) as Hread.
    revert Hread. destruct (read maxConsecutiveEmptyReads r s1) as [s3 r3].
    proj. now intros Hread [= <- <-].
Qed.

(** How a turn of the loop can end the call, and what a turn that does
    not has gained. *)
Lemma turn_outcome (r : R) s :
  wf s ->
  match turn_of r s with
  | Exit (Return true) s' _ => exists tok, token s' = Some tok /\ x0a ∉ tok
  | Exit (Return false) s' _ => token s' = None
  | Exit Panic _ _ => False
  | Again s' _ => err s' <> None \/ len (data s) < len (data s')
  end.
Proof.
  intros Hwf. unfold turn_of.
  destruct ((start s <? end_ s) || not_nil (err s)) eqn:Hrun.
  - rewrite (wf_split s Hwf).
    destruct (ScanLines_shape (data s) (not_nil (err s))) as (adv & tok & Heq & Hadv).
    rewrite Heq. unfold advance, end_.
    replace (adv <? 0) with false by (symmetry; apply Z.ltb_ge; lia).
    replace (start s + len (data s) - start s <? adv) with false
      by (symmetry; apply Z.ltb_ge; lia).
    proj. destruct tok as [tok|]; proj.
    + destruct (ScanLines_token _ _ _ _ Heq) as [Hpos Hfree].
      replace (0 <? adv) with true by (symmetry; apply Z.ltb_lt; lia).
      rewrite orb_true_r. exists tok. split; [reflexivity|exact Hfree].
    + rewrite (ScanLines_no_token _ _ _ Heq).
      match goal with |- context [fill r ?s2] =>
        pose proof (fill_exit r s2) as Hexit; pose proof (fill_progress r s2) as Hagain;
        destruct (fill r s2) as [e s' r'|s' r'] end.
      * destruct (Hexit e s' r' eq_refl) as [-> Htok]. exact Htok.
      * specialize (Hagain s' r' eq_refl). revert Hagain. proj.
        now rewrite drop_0.
  - apply orb_false_iff in Hrun as [Hlt Herr].
    assert (He : err s = None) by (now destruct (err s)).
    apply Z.ltb_ge in Hlt. unfold end_ in Hlt. pose proof (len_nonneg (data s)) as H0.
    destruct (fill_room r s Hwf He) as (b & st & _ & _ & Hfill);
      [pose proof MaxScanTokenSize_pos; lia|].
    pose proof (fill_progress r s) as Hagain. rewrite Hfill in *.
    destruct (read _ _ _) as [s' r']. exact (Hagain s' r' eq_refl).
Qed.

(** The loop of [Scan] returns, whatever the reads bring: every turn that
    does not end the call records an error, which ends the next one, or
    adds to a buffer that cannot grow beyond [MaxScanTokenSize]. *)
Lemma loop_returns (n : nat) :
  forall fuel (r : R) s,
    wf s -> MaxScanTokenSize - len (data s) <= Z.of_nat n -> (S n < fuel)%nat ->
    exists e s' r',
      loop fuel r s = Some (e, s', r') /\ wf s'
      /\ match e with
         | Return true => exists tok, token s' = Some tok /\ x0a ∉ tok
         | Return false => token s' = None
         | Panic => False
         end.
Proof.
  assert (Hturn : forall (r : R) s, wf s ->
            match turn_of r s with Exit _ s' _ | Again s' _ => wf s' end).
  { intros r s Hwf.
    pose proof (turn_inv (fun _ => True) (fun _ _ _ => I) r s Hwf I) as Hinv.
    destruct (turn_of r s); tauto. }
  assert (Herror : forall fuel (r : R) s, wf s -> err s <> None ->
            exists e s' r',
              loop (S fuel) r s = Some (e, s', r') /\ wf s'
              /\ match e with
                 | Return true => exists tok, token s' = Some tok /\ x0a ∉ tok
                 | Return false => token s' = None
                 | Panic => False
                 end).
  { intros fuel r s Hwf He. destruct (err s) as [e0|] eqn:He0; [|congruence].
    pose proof (turn_outcome r s Hwf) as Hout. cbn [loop].
    destruct (turn_after_error r s e0 Hwf He0) as (s' & Hexit & Hwf' & _).
    rewrite Hexit in *. eexists _, s', r. split; [reflexivity|]. split; assumption. }
  induction n as [|n IH]; intros fuel r s Hwf Hn Hfuel;
    (destruct fuel as [|fuel]; [lia|]); cbn [loop];
    pose proof (turn_outcome r s Hwf) as Hout; pose proof (Hturn r s Hwf) as Hwf1;
    (destruct (turn_of r s) as [e s1 r1|s1 r1];
     [exists e, s1, r1; split; [reflexivity|split; assumption]|]);
    (destruct Hout as [Herr|Hgrow];
     [destruct fuel as [|fuel]; [lia|]; now apply Herror|]).
  - pose proof (wf_len_data s1 Hwf1). lia.
  - apply IH; [exact Hwf1|lia|lia].
Qed.

Lemma Scan_returns fuel (r : R) s :
  wf s -> (S (Z.to_nat MaxScanTokenSize) < fuel)%nat ->
  exists e s' r',
    Scan fuel r s = Some (e, s', r') /\ wf s'
    /\ match e with
       | Return true => exists tok, token s' = Some tok /\ x0a ∉ tok
       | Return false => token s' = None
       | Panic => False
       end.
Proof.
  intros Hwf Hfuel. unfold Scan. rewrite (wf_done s Hwf).
  apply (loop_returns (Z.to_nat MaxScanTokenSize));
    [apply set_scanCalled_wf; exact Hwf| |exact Hfuel].
  rewrite Z2Nat.id by discriminate. proj. pose proof (len_nonneg (data s)). lia.
Qed.

(** X7: whatever the reads of the resource bring, [Next()] returns, and
    does not panic: within 65538 turns of the scanner's loop it returns
    true, and [Item()] is then a line, with no newline in it, or it
    returns false, and [Item()] is then the empty string. *)
Theorem Next_returns_a_line_or_false fuel (i : t R) :
  wf (scanner i) -> (S (Z.to_nat MaxScanTokenSize) < fuel)%nat ->
  exists e i',
    Next fuel i = Some (e, i') /\ wf (scanner i')
    /\ ((e = Return true
         /\ exists line, Item i' = String.string_of_list_byte line /\ x0a ∉ line)
        \/ (e = Return false /\ Item i' = String.EmptyString)).
Proof.
  intros Hwf Hfuel. unfold Next.
  destruct (Scan_returns fuel (c i) (scanner i) Hwf Hfuel)
    as (e & s' & r' & -> & Hwf' & Hshape).
  exists e, (mk r' s'). split; [reflexivity|]. split; [exact Hwf'|].
  unfold Item, Text. cbn [scanner].
  destruct e as [[|]|]; [left|right|contradiction].
  - destruct Hshape as (tok & -> & Hfree). split; [reflexivity|].
    exists tok. split; [reflexivity|exact Hfree].
  - rewrite Hshape. split; reflexivity.
Qed.

(** X9: an error is final. Once [Err()] is not nil the resource is not
    read again, whatever number of [Next()] follow, and [Err()] keeps
    returning the same error; the [Next()] calls return true for the
    lines still in the buffer, no more of them than it holds bytes, and
    false from then on. *)
Theorem no_read_after_an_error fuel n (i : t R) e :
  wf (scanner i) -> Err i = Some e ->
  exists k i',
    play (S fuel) (replicate n CallNext) i =
      Some (replicate k (RNext (Return true))
            ++ replicate (n - k) (RNext (Return false)), i')
    /\ (k <= n)%nat /\ (k <= length (data (scanner i)))%nat
    /\ c i' = c i /\ Err i' = Some e.
Proof.
  intros Hwf HE.
  assert (He : err (scanner i) = Some e /\ e <> EOF).
  { unfold Err, bufio.Err in HE. destruct (err (scanner i)) as [[]|];
      try discriminate; injection HE as <-; split; (reflexivity || discriminate). }
  destruct He as [He Hne]. clear HE.
  assert (Hgoal : exists k i',
            play (S fuel) (replicate n CallNext) i =
              Some (replicate k (RNext (Return true))
                    ++ replicate (n - k) (RNext (Return false)), i')
            /\ (k <= n)%nat /\ (k <= length (data (scanner i)))%nat
            /\ c i' = c i /\ err (scanner i') = Some e).
  { revert i Hwf He. induction n as [|n IH]; intros i Hwf He.
    { exists 0%nat, i. split; [reflexivity|]. split; [lia|]. split; [lia|].
      split; [reflexivity|exact He]. }
    cbn [replicate play exec]. unfold Next.
    destruct (Scan_after_error fuel (c i) (scanner i) e Hwf He)
      as (s' & -> & Hwf' & He' & Hnil & Hless & _).
    destruct (IH (mk (c i) s') Hwf' He') as (k & i' & -> & Hk & Hkd & Hc & He'').
    cbn [scanner c] in *.
    destruct (data (scanner i)) as [|x d] eqn:Hd.
    - rewrite (Hnil eq_refl) in Hkd. cbn [length] in Hkd.
      replace k with 0%nat in * by lia.
      exists 0%nat, i'. cbn. rewrite Nat.sub_0_r. split; [reflexivity|].
      split; [lia|]. split; [lia|]. split; assumption.
    - specialize (Hless ltac:(discriminate)). unfold len in Hless.
      exists (S k), i'. cbn [replicate app negb]. rewrite Nat.sub_succ.
      replace (Z.of_nat (length (x :: d)) =? 0) with false by reflexivity.
      split; [reflexivity|]. split; [lia|]. split; [lia|]. split; assumption. }
  destruct Hgoal as (k & i' & Hplay & Hk & Hkd & Hc & He').
  exists k, i'. split; [exact Hplay|]. split; [exact Hk|]. split; [exact Hkd|].
  split; [exact Hc|]. unfold Err, bufio.Err. rewrite He'. now destruct e.
Qed.

End AnyReader.

(** At the end of the file the read brings the error that ends it and no
    data. *)
Lemma fill_ends (f : file.t) s :
  wf s -> err s = None -> len (data s) < MaxScanTokenSize ->
  file.pending f = [] ->
  exists s',
    fill f s = Again s' f
    /\ wf s' /\ err s' = Some (file.ending f) /\ data s' = data s
    /\ token s' = token s /\ scanCalled s' = scanCalled s.
Proof.
  intros Hwf He Hroom Hp.
  destruct (fill_room f s Hwf He Hroom) as (b & st & Hwf1 & Hcap & ->).
  rewrite read_unfold. cbn [io.Read file.ReadCloser]. unfold file.Read. rewrite Hp.
  unfold end_. proj.
  replace (b - (st + len (data s)) <? len []) with false
    by (symmetry; apply Z.ltb_ge; unfold len at 1; cbn [length]; lia).
  unfold setErr. proj. rewrite He, app_nil_r.
  eexists. split; [reflexivity|]. proj.
  split; [destruct Hwf1; split; assumption|].
  repeat split; reflexivity.
Qed.

(** The loop of [Scan] over a line that fits: it reads until the newline
    is in the buffer and hands the line out, leaving what follows. *)
Lemma loop_finds_line (line rest : list byte) (n : nat) :
  x0a ∉ line -> len line < MaxScanTokenSize ->
  forall fuel s (f : file.t),
    wf s -> err s = None -> file.lively f ->
    data s ++ concat (file.pending f) = line ++ x0a :: rest ->
    len line + 1 - len (data s) <= Z.of_nat n -> (n < fuel)%nat ->
    exists s' rest',
      loop fuel f s =
        Some (Return true, s',
              file.mk rest' (file.ending f) (file.close_error f) (file.closes f))
      /\ wf s' /\ err s' = None /\ token s' = Some (dropCR line)
      /\ data s' ++ concat rest' = rest
      /\ Forall (fun chunk => chunk <> []) rest'
      /\ (x0a ∈ data s -> rest' = file.pending f).
Proof.
  intros Hnl Hshort. induction n as [|n IH]; intros fuel s f Hwf He Hl Hcat Hn Hfuel;
    (destruct fuel as [|fuel]; [lia|]); cbn [loop];
    (destruct (line_or_prefix _ _ _ _ Hcat Hnl) as [(more & Hd & Hrest)|(Hfree & k & Hline & Hq)];
     [destruct (turn_line f s line more Hwf He Hd Hnl) as (s' & -> & Hwf' & He' & Htok & Hd' & _);
      exists s', (file.pending f); destruct f as [pd en ce cl]; cbn [file.pending] in *;
      split; [reflexivity|]; split; [exact Hwf'|]; split; [exact He'|];
      split; [exact Htok|]; split; [rewrite Hd'; now symmetry|];
      split; [exact Hl|reflexivity]
     |]).
  - exfalso. rewrite Hline, len_app in Hn. pose proof (len_nonneg k). lia.
  - rewrite (turn_no_line f s Hwf He Hfree).
    set (s0 := set_token (if start s <? end_ s then None else token s) s).
    assert (Hwf0 : wf s0) by (apply set_token_wf; exact Hwf).
    assert (Hne : file.pending f <> []).
    { intros Hnil. rewrite Hnil in Hq. cbn [concat] in Hq. now destruct k. }
    assert (Hroom : len (data s0) < MaxScanTokenSize).
    { subst s0. proj. rewrite Hline, len_app in Hshort. pose proof (len_nonneg k). lia. }
    destruct (fill_reads f s0 Hwf0 He Hroom Hl Hne) as
      (s1 & p & rest1 & -> & Hwf1 & He1 & Hd1 & Hp & _ & Hcat1 & Hrest1).
    subst s0. revert Hd1. proj. intros Hd1.
    destruct (IH fuel s1
                (file.mk rest1 (file.ending f) (file.close_error f) (file.closes f)))
      as (s' & rest' & Hloop & Hwf' & He' & Htok & Hcat' & Hrest' & _);
      [assumption|assumption|exact Hrest1| | |lia|].
    { cbn [file.pending]. rewrite Hd1, <- app_assoc, Hcat1. exact Hcat. }
    { rewrite Hd1, len_app. lia. }
    exists s', rest'. cbn [file.ending file.close_error file.closes] in Hloop.
    split; [exact Hloop|]. split; [exact Hwf'|]. split; [exact He'|].
    split; [exact Htok|]. split; [exact Hcat'|]. split; [exact Hrest'|].
    intros Hin. contradiction.
Qed.

(** The loop of [Scan] with nothing left to read and no newline in the
    buffer: the read ends the reading, and what the buffer holds is the
    last line. *)
Lemma loop_ends_now (f : file.t) s fuel :
  wf s -> err s = None -> file.pending f = [] ->
  x0a ∉ data s -> len (data s) < MaxScanTokenSize ->
  exists s',
    loop (S (S fuel)) f s = Some (Return (negb (len (data s) =? 0)), s', f)
    /\ wf s' /\ err s' = Some (file.ending f) /\ data s' = []
    /\ (data s <> [] -> token s' = Some (dropCR (data s))).
Proof.
  intros Hwf He Hp Hfree Hroom. cbn [loop].
  rewrite (turn_no_line f s Hwf He Hfree).
  set (s0 := set_token (if start s <? end_ s then None else token s) s).
  assert (Hwf0 : wf s0) by (apply set_token_wf; exact Hwf).
  destruct (fill_ends f s0 Hwf0 He Hroom Hp) as (s1 & -> & Hwf1 & He1 & Hd1 & _).
  subst s0. revert Hd1. proj. intros Hd1.
  destruct (turn_after_error f s1 (file.ending f) Hwf1 He1)
    as (s' & -> & Hwf' & He' & _ & Hnil & _ & Hlast).
  rewrite Hd1 in *. exists s'. split; [reflexivity|].
  split; [exact Hwf'|]. split; [exact He'|].
  destruct (data s) as [|x d] eqn:Hd.
  - split; [now apply Hnil|]. intros Hne. congruence.
  - destruct Hlast as [Hd' Htok]; [discriminate|exact Hfree|].
    split; [exact Hd'|]. intros _. exact Htok.
Qed.

Lemma loop_at_end (U : list byte) (n : nat) :
  x0a ∉ U -> len U < MaxScanTokenSize ->
  forall fuel s (f : file.t),
    wf s -> err s = None -> file.lively f ->
    data s ++ concat (file.pending f) = U ->
    len (concat (file.pending f)) <= Z.of_nat n -> (S n < fuel)%nat ->
    exists s',
      loop fuel f s =
        Some (Return (negb (len U =? 0)), s',
              file.mk [] (file.ending f) (file.close_error f) (file.closes f))
      /\ wf s' /\ err s' = Some (file.ending f) /\ data s' = []
      /\ (U <> [] -> token s' = Some (dropCR U)).
Proof.
  intros Hnl Hshort.
  assert (Hend : forall fuel s (f : file.t),
            wf s -> err s = None -> data s ++ concat (file.pending f) = U ->
            file.pending f = [] -> (1 < fuel)%nat ->
            exists s',
              loop fuel f s =
                Some (Return (negb (len U =? 0)), s',
                      file.mk [] (file.ending f) (file.close_error f) (file.closes f))
              /\ wf s' /\ err s' = Some (file.ending f) /\ data s' = []
              /\ (U <> [] -> token s' = Some (dropCR U))).
  { intros fuel s f Hwf He Hcat Hp Hfuel.
    rewrite Hp in Hcat. cbn [concat] in Hcat. rewrite app_nil_r in Hcat.
    destruct fuel as [|[|fuel]]; [lia..|].
    destruct (loop_ends_now f s fuel Hwf He Hp) as (s' & Hloop & Hrest);
      [now rewrite Hcat..|].
    rewrite Hcat in *. exists s'. destruct f as [pd en ce cl].
    cbn [file.pending file.ending file.close_error file.closes] in *. subst pd.
    split; [exact Hloop|exact Hrest]. }
  induction n as [|n IH]; intros fuel s f Hwf He Hl Hcat Hn Hfuel;
    (destruct (file.pending f) as [|chunk more] eqn:Hp;
     [apply Hend; [assumption|assumption|now rewrite Hp|assumption|lia]|]);
    assert (Hchunk : 0 < len chunk)
      by (unfold file.lively in Hl; rewrite Hp in Hl;
          apply Forall_cons in Hl as [Hc _]; now apply len_pos_nonempty).
  - exfalso. cbn [concat] in Hn. rewrite len_app in Hn.
    pose proof (len_nonneg (concat more)). lia.
  - destruct fuel as [|fuel]; [lia|]. cbn [loop].
    assert (Hfree : x0a ∉ data s).
    { intros Hin. apply Hnl. rewrite <- Hcat. apply elem_of_app. now left. }
    rewrite (turn_no_line f s Hwf He Hfree).
    set (s0 := set_token (if start s <? end_ s then None else token s) s).
    assert (Hwf0 : wf s0) by (apply set_token_wf; exact Hwf).
    assert (Hroom : len (data s0) < MaxScanTokenSize).
    { subst s0. proj. rewrite <- Hcat, len_app in Hshort.
      pose proof (len_nonneg (concat (chunk :: more))). lia. }
    destruct (fill_reads f s0 Hwf0 He Hroom Hl) as
      (s1 & p & rest1 & -> & Hwf1 & He1 & Hd1 & Hlp & _ & Hcat1 & Hrest1);
      [now rewrite Hp|].
    subst s0. revert Hd1. proj. intros Hd1. rewrite Hp in Hcat1.
    destruct (IH fuel s1
                (file.mk rest1 (file.ending f) (file.close_error f) (file.closes f)))
      as (s' & Hloop & Hrest); [assumption|assumption|exact Hrest1| | |lia|].
    { cbn [file.pending]. rewrite Hd1, <- app_assoc, Hcat1. exact Hcat. }
    { cbn [file.pending]. rewrite <- Hcat1, len_app in Hn. lia. }
    exists s'. cbn [file.ending file.close_error file.closes] in Hloop.
    split; [exact Hloop|exact Hrest].
Qed.

Lemma Next_line fuel (i : t file.t) line rest :
  wf (scanner i) -> err (scanner i) = None -> file.lively (c i) ->
  upcoming i = line ++ x0a :: rest -> x0a ∉ line ->
  len line < MaxScanTokenSize -> (length line + 1 < fuel)%nat ->
  exists s' rest',
    Next fuel i =
      Some (Return true,
            mk (file.mk rest' (file.ending (c i)) (file.close_error (c i))
                  (file.closes (c i))) s')
    /\ wf s' /\ err s' = None /\ token s' = Some (dropCR line)
    /\ data s' ++ concat rest' = rest
    /\ Forall (fun chunk => chunk <> []) rest'
    /\ (x0a ∈ data (scanner i) -> rest' = file.pending (c i)).
Proof.
  intros Hwf He Hl HU Hnl Hshort Hfuel. unfold Next, Scan. rewrite (wf_done _ Hwf).
  pose proof (len_nonneg (data (scanner i))) as H0.
  destruct (loop_finds_line line rest (length line + 1) Hnl Hshort fuel
              (set_scanCalled true (scanner i)) (c i))
    as (s' & rest' & -> & Hrest);
    [apply set_scanCalled_wf; exact Hwf|exact He|exact Hl|exact HU
    |proj; unfold len; lia|exact Hfuel|].
  exists s', rest'. split; [reflexivity|exact Hrest].
Qed.

Lemma Next_at_end fuel (i : t file.t) :
  wf (scanner i) -> err (scanner i) = None -> file.lively (c i) ->
  x0a ∉ upcoming i -> len (upcoming i) < MaxScanTokenSize ->
  (length (upcoming i) + 1 < fuel)%nat ->
  exists s',
    Next fuel i =
      Some (Return (negb (len (upcoming i) =? 0)),
            mk (file.mk [] (file.ending (c i)) (file.close_error (c i))
                  (file.closes (c i))) s')
    /\ wf s' /\ err s' = Some (file.ending (c i)) /\ data s' = []
    /\ (upcoming i <> [] -> token s' = Some (dropCR (upcoming i))).
Proof.
  intros Hwf He Hl Hnl Hshort Hfuel. unfold Next, Scan. rewrite (wf_done _ Hwf).
  destruct (loop_at_end (upcoming i) (length (upcoming i)) Hnl Hshort fuel
              (set_scanCalled true (scanner i)) (c i))
    as (s' & -> & Hrest);
    [apply set_scanCalled_wf; exact Hwf|exact He|exact Hl|reflexivity
    | |lia|].
  { unfold upcoming, len. rewrite length_app. lia. }
  exists s'. split; [reflexivity|exact Hrest].
Qed.

Lemma not_newline x : x0a <> x -> Byte.eqb x x0a = false.
Proof.
  intros Hx. destruct (Byte.eqb x x0a) eqn:E; [|reflexivity].
  apply Byte.byte_dec_bl in E. congruence.
Qed.

Lemma lines_no_newline U :
  x0a ∉ U -> lines U = match U with [] => [] | _ => [U] end.
Proof.
  induction U as [|x U IH]; intros Hn; [reflexivity|].
  apply not_elem_of_cons in Hn as [Hx HU]. cbn [lines].
  rewrite (not_newline x Hx), (IH HU). now destruct U.
Qed.

Lemma lines_line line rest :
  x0a ∉ line -> lines (line ++ x0a :: rest) = line :: lines rest.
Proof.
  induction line as [|x line IH]; intros Hn; [reflexivity|].
  apply not_elem_of_cons in Hn as [Hx Hl]. cbn [lines app].
  rewrite (not_newline x Hx), (IH Hl). reflexivity.
Qed.

Lemma first_newline (U : list byte) :
  x0a ∉ U \/ exists line rest, U = line ++ x0a :: rest /\ x0a ∉ line.
Proof.
  induction U as [|x U IH]; [left; apply not_elem_of_nil|].
  destruct (Byte.eqb x x0a) eqn:E.
  - apply Byte.byte_dec_bl in E. subst x. right. exists [], U.
    split; [reflexivity|apply not_elem_of_nil].
  - assert (Hx : x0a <> x).
    { intros <-. rewrite (Byte.byte_dec_lb eq_refl) in E. discriminate. }
    destruct IH as [HU|(line & rest & -> & Hl)].
    + left. apply not_elem_of_cons. split; assumption.
    + right. exists (x :: line), rest. split; [reflexivity|].
      apply not_elem_of_cons. split; assumption.
Qed.

(** The consumer's loop on the last stretch, where no newline is left. *)
Lemma collect_at_end fuel rounds (i : t file.t) :
  wf (scanner i) -> err (scanner i) = None -> file.lively (c i) ->
  x0a ∉ upcoming i -> len (upcoming i) < MaxScanTokenSize ->
  (Z.to_nat MaxScanTokenSize < fuel)%nat ->
  (length (lines (upcoming i)) < rounds)%nat ->
  exists s',
    collect fuel rounds i =
      Some (items_of (upcoming i), Return false,
            mk (file.mk [] (file.ending (c i)) (file.close_error (c i))
                  (file.closes (c i))) s')
    /\ wf s' /\ err s' = Some (file.ending (c i)) /\ data s' = [].
Proof.
  intros Hwf He Hl Hnl Hshort Hfuel Hrounds.
  destruct (Next_at_end fuel i Hwf He Hl Hnl Hshort) as (s1 & HN & Hwf1 & He1 & Hd1 & Htok);
    [unfold len in Hshort; lia|].
  unfold items_of. rewrite (lines_no_newline _ Hnl) in *.
  destruct (upcoming i) as [|x U] eqn:HU.
  - destruct rounds as [|rounds]; [cbn in Hrounds; lia|]. cbn [collect].
    rewrite HN. cbn. exists s1. split; [reflexivity|]. split; [|split]; assumption.
  - destruct rounds as [|[|rounds]]; [cbn in Hrounds; lia..|]. cbn [collect].
    rewrite HN. replace (len (x :: U) =? 0) with false by reflexivity. cbn [negb].
    destruct fuel as [|fuel]; [lia|].
    set (f1 := file.mk [] (file.ending (c i)) (file.close_error (c i))
                 (file.closes (c i))) in *.
    destruct (Next_after_error fuel (mk f1 s1) (file.ending (c i)) Hwf1 He1)
      as (s2 & HN2 & Hwf2 & He2 & Hd2 & _).
    cbn [scanner c] in HN2, Hd2. rewrite Hd1 in HN2. cbn in HN2. rewrite HN2.
    unfold Item, Text. cbn [scanner]. rewrite Htok by discriminate.
    exists s2. split; [reflexivity|]. split; [exact Hwf2|]. split; [exact He2|].
    now apply Hd2.
Qed.

(** The consumer's loop over a file of lines that fit. *)
Lemma collect_lines (n : nat) :
  forall fuel rounds (i : t file.t),
    (length (upcoming i) <= n)%nat ->
    wf (scanner i) -> err (scanner i) = None -> file.lively (c i) ->
    Forall (fun line => len line < MaxScanTokenSize) (lines (upcoming i)) ->
    (Z.to_nat MaxScanTokenSize < fuel)%nat ->
    (length (lines (upcoming i)) < rounds)%nat ->
    exists s',
      collect fuel rounds i =
        Some (items_of (upcoming i), Return false,
              mk (file.mk [] (file.ending (c i)) (file.close_error (c i))
                    (file.closes (c i))) s')
      /\ wf s' /\ err s' = Some (file.ending (c i)) /\ data s' = [].
Proof.
  assert (Hlast : forall fuel rounds (i : t file.t),
            wf (scanner i) -> err (scanner i) = None -> file.lively (c i) ->
            Forall (fun line => len line < MaxScanTokenSize) (lines (upcoming i)) ->
            (Z.to_nat MaxScanTokenSize < fuel)%nat ->
            (length (lines (upcoming i)) < rounds)%nat ->
            x0a ∉ upcoming i ->
            exists s',
              collect fuel rounds i =
                Some (items_of (upcoming i), Return false,
                      mk (file.mk [] (file.ending (c i)) (file.close_error (c i))
                            (file.closes (c i))) s')
              /\ wf s' /\ err s' = Some (file.ending (c i)) /\ data s' = []).
  { intros fuel rounds i Hwf He Hl Hshort Hfuel Hrounds Hnl.
    apply collect_at_end; try assumption.
    rewrite (lines_no_newline _ Hnl) in Hshort.
    destruct (upcoming i) as [|x U]; [reflexivity|].
    now apply Forall_cons in Hshort as [Hx _]. }
  induction n as [|n IH]; intros fuel rounds i Hn Hwf He Hl Hshort Hfuel Hrounds;
    (destruct (first_newline (upcoming i)) as [Hnl|(line & rest & HU & Hnl)];
     [now apply Hlast|]).
  - exfalso. rewrite HU, length_app in Hn. cbn [length] in Hn. lia.
  - rewrite HU, (lines_line _ _ Hnl) in Hshort, Hrounds.
    apply Forall_cons in Hshort as [Hline Hshort].
    destruct rounds as [|rounds]; [lia|]. cbn [length] in Hrounds.
    destruct (Next_line fuel i line rest Hwf He Hl HU Hnl Hline)
      as (s1 & rest1 & HN & Hwf1 & He1 & Htok & Hcat & Hl1 & _);
      [unfold len in Hline; lia|].
    set (i1 := mk (file.mk rest1 (file.ending (c i)) (file.close_error (c i))
                     (file.closes (c i))) s1) in *.
    assert (HU1 : upcoming i1 = rest) by exact Hcat.
    destruct (IH fuel rounds i1) as (s' & Hcollect & Hrest);
      [rewrite HU1; rewrite HU, length_app in Hn; cbn [length] in Hn; lia
      |exact Hwf1|exact He1|exact Hl1|now rewrite HU1|exact Hfuel
      |rewrite HU1; lia|].
    cbn [collect]. rewrite HN, Hcollect.
    exists s'. split; [|exact Hrest].
    unfold items_of. rewrite HU, (lines_line _ _ Hnl), HU1. cbn [map].
    unfold Item, Text. cbn [scanner i1]. rewrite Htok. reflexivity.
Qed.

(** X4: with a line that fits ahead (fewer than 65536 bytes before the
    newline), however the reads cut it, [Next()] returns true and [Item()]
    is that line, without its newline and without a carriage return before
    it; no error is recorded and what follows the newline is all still to
    come. With the newline in the buffer already, the file is not read. *)
Theorem Next_hands_out_the_line fuel (i : t file.t) line rest :
  wf (scanner i) -> err (scanner i) = None -> file.lively (c i) ->
  upcoming i = line ++ x0a :: rest -> x0a ∉ line ->
  len line < MaxScanTokenSize -> (length line + 1 < fuel)%nat ->
  exists i',
    Next fuel i = Some (Return true, i')
    /\ Item i' = String.string_of_list_byte (dropCR line)
    /\ Err i' = None
    /\ upcoming i' = rest
    /\ wf (scanner i') /\ err (scanner i') = None /\ file.lively (c i')
    /\ (x0a ∈ data (scanner i) -> c i' = c i).
Proof.
  intros Hwf He Hl HU Hnl Hshort Hfuel.
  destruct (Next_line fuel i line rest Hwf He Hl HU Hnl Hshort Hfuel)
    as (s' & rest' & HN & Hwf' & He' & Htok & Hcat & Hl' & Hsame).
  eexists. split; [exact HN|].
  unfold Item, Text, Err, bufio.Err, upcoming. cbn [scanner c file.pending].
  rewrite Htok, He'. split; [reflexivity|]. split; [reflexivity|].
  split; [exact Hcat|]. split; [exact Hwf'|]. split; [reflexivity|].
  split; [exact Hl'|]. intros Hin. rewrite (Hsame Hin). now destruct (c i).
Qed.

(** The consumer's loop over a fresh iterator, and the calls after it. *)
Lemma collect_whole_file pieces e ce fuel rounds :
  Forall (fun piece => piece <> []) pieces ->
  Forall (fun line => len line < MaxScanTokenSize) (lines (concat pieces)) ->
  (Z.to_nat MaxScanTokenSize < fuel)%nat ->
  (length (lines (concat pieces)) < rounds)%nat ->
  exists s',
    collect fuel rounds (new (file.mk pieces e ce 0)) =
      Some (items_of (concat pieces), Return false, mk (file.mk [] e ce 0) s')
    /\ err s' = Some e
    /\ forall n, exists i'',
         play fuel (replicate n CallNext) (mk (file.mk [] e ce 0) s')
           = Some (replicate n (RNext (Return false)), i'')
         /\ err (scanner i'') = Some e.
Proof.
  intros Hl Hshort Hfuel Hrounds.
  destruct (collect_lines (length (concat pieces)) fuel rounds
              (new (file.mk pieces e ce 0)))
    as (s' & Hcollect & Hwf' & He' & Hd'); try assumption;
    [reflexivity|exact NewScanner_wf|reflexivity|].
  exists s'. split; [exact Hcollect|]. split; [exact He'|].
  intros n. destruct fuel as [|fuel]; [lia|].
  destruct (Nexts_after_drain fuel n (mk (file.mk [] e ce 0) s') e Hwf' He' Hd')
    as (i'' & Hplay & _ & He'').
  exists i''. split; assumption.
Qed.

(** X6: over a file that ends in [io.EOF], with every line shorter than
    65536 bytes and however the reads cut the content, the consumer's loop
    ends and has then appended the lines of the file, in order: one item
    for what stands before each newline, one more for what follows the
    last newline unless that is nothing, each without the carriage return
    at its end. The whole file has been read, [Err()] is nil, and every
    further [Next()] returns false. *)
Theorem collect_yields_the_lines pieces ce fuel rounds :
  Forall (fun piece => piece <> []) pieces ->
  Forall (fun line => len line < MaxScanTokenSize) (lines (concat pieces)) ->
  (Z.to_nat MaxScanTokenSize < fuel)%nat ->
  (length (lines (concat pieces)) < rounds)%nat ->
  exists i',
    collect fuel rounds (new (sound_file pieces ce)) =
      Some (items_of (concat pieces), Return false, i')
    /\ Err i' = None
    /\ file.pending (c i') = []
    /\ forall n, exists i'',
         play fuel (replicate n CallNext) i' =
           Some (replicate n (RNext (Return false)), i'')
         /\ Err i'' = None.
Proof.
  intros Hl Hshort Hfuel Hrounds.
  destruct (collect_whole_file pieces EOF ce fuel rounds Hl Hshort Hfuel Hrounds)
    as (s' & Hcollect & He' & Hlater).
  eexists. split; [exact Hcollect|].
  unfold Err, bufio.Err. cbn [scanner c file.pending]. rewrite He'.
  split; [reflexivity|]. split; [reflexivity|].
  intros n. destruct (Hlater n) as (i'' & Hplay & He'').
  exists i''. split; [exact Hplay|]. now rewrite He''.
Qed.





End scannerIterReading.

Module scannerIterReadingExamples.
Import bufio bufioSpec scannerIter scannerIterReading.

Lemma a_b_c_lively : file.lively (c (new (file.of_bytes a_b_c))).
Proof. repeat constructor. discriminate. Defined.

Lemma a_no_newline : x0a ∉ [x61].
Proof. apply not_elem_of_cons. split; [discriminate|apply not_elem_of_nil]. Defined.

Lemma Next_hands_out_the_line_witness :
  wf (scanner (new (file.of_bytes a_b_c)))
  /\ err (scanner (new (file.of_bytes a_b_c))) = None
  /\ file.lively (c (new (file.of_bytes a_b_c)))
  /\ upcoming (new (file.of_bytes a_b_c)) = [x61] ++ x0a :: [x62; x0a; x63]
  /\ (x0a ∉ [x61])
  /\ len [x61] < MaxScanTokenSize
  /\ (length [x61] + 1 < 3)%nat
  /\ exists i',
       Next 3 (new (file.of_bytes a_b_c)) = Some (Return true, i')
       /\ Item i' = String.string_of_list_byte (dropCR [x61])
       /\ Err i' = None
       /\ upcoming i' = [x62; x0a; x63]
       /\ wf (scanner i') /\ err (scanner i') = None /\ file.lively (c i')
       /\ (x0a ∈ data (scanner (new (file.of_bytes a_b_c))) ->
           c i' = c (new (file.of_bytes a_b_c))).
Proof.
  split; [exact NewScanner_wf|]. split; [reflexivity|].
  split; [exact a_b_c_lively|]. split; [reflexivity|].
  split; [exact a_no_newline|]. split; [reflexivity|]. split; [exact (le_n 3)|].
  exact (Next_hands_out_the_line 3 (new (file.of_bytes a_b_c)) [x61] [x62; x0a; x63]
           NewScanner_wf eq_refl a_b_c_lively eq_refl a_no_newline eq_refl (le_n 3)).
Defined.

Lemma crlf_pieces_nonempty : Forall (fun piece : list byte => piece <> []) crlf_pieces.
Proof. repeat constructor; discriminate. Defined.

Lemma crlf_lines : lines (concat crlf_pieces) = [[x61; x0d]; [x62]; []; [x63]].
Proof. reflexivity. Defined.

Lemma crlf_items : items_of (concat crlf_pieces) = crlf_strings.
Proof. reflexivity. Defined.

Lemma crlf_short :
  Forall (fun line => len line < MaxScanTokenSize) (lines (concat crlf_pieces)).
Proof. rewrite crlf_lines. repeat constructor. Defined.

Lemma crlf_rounds : (length (lines (concat crlf_pieces)) < 5)%nat.
Proof. rewrite crlf_lines. exact (le_n 5). Defined.

Lemma collect_yields_the_lines_witness :
  Forall (fun piece : list byte => piece <> []) crlf_pieces
  /\ Forall (fun line => len line < MaxScanTokenSize) (lines (concat crlf_pieces))
  /\ (Z.to_nat MaxScanTokenSize < plenty)%nat
  /\ (length (lines (concat crlf_pieces)) < 5)%nat
  /\ exists i',
       collect plenty 5 (new (sound_file crlf_pieces None)) =
         Some (items_of (concat crlf_pieces), Return false, i')
       /\ Err i' = None
       /\ file.pending (c i') = []
       /\ forall n, exists i'',
            play plenty (replicate n CallNext) i' =
              Some (replicate n (RNext (Return false)), i'')
            /\ Err i'' = None.
Proof.
  split; [exact crlf_pieces_nonempty|]. split; [exact crlf_short|].
  split; [exact scannerIterExamples.plenty_enough|]. split; [exact crlf_rounds|].
  exact (collect_yields_the_lines crlf_pieces None plenty 5 crlf_pieces_nonempty
           crlf_short scannerIterExamples.plenty_enough crlf_rounds).
Defined.







Lemma more_than_plenty : (S (Z.to_nat MaxScanTokenSize) < S plenty)%nat.
Proof. unfold plenty. apply Nat.lt_succ_diag_r. Defined.

Lemma Next_returns_a_line_or_false_witness :
  wf (scanner (new (file.of_bytes a_b_c)))
  /\ (S (Z.to_nat MaxScanTokenSize) < S plenty)%nat
  /\ exists e i',
       Next (S plenty) (new (file.of_bytes a_b_c)) = Some (e, i')
       /\ wf (scanner i')
       /\ ((e = Return true
            /\ exists line, Item i' = String.string_of_list_byte line /\ x0a ∉ line)
           \/ (e = Return false /\ Item i' = String.EmptyString)).
Proof.
  split; [exact NewScanner_wf|]. split; [exact more_than_plenty|].
  exact (Next_returns_a_line_or_false (S plenty) (new (file.of_bytes a_b_c))
           NewScanner_wf more_than_plenty).
Defined.


Lemma failed_wf : wf (scanner failed).
Proof. split; try reflexivity; discriminate. Defined.

Lemma no_read_after_an_error_witness :
  wf (scanner failed) /\ Err failed = Some failure
  /\ exists k i',
       play 1 (replicate 3 CallNext) failed =
         Some (replicate k (RNext (Return true))
               ++ replicate (3 - k) (RNext (Return false)), i')
       /\ (k <= 3)%nat /\ (k <= length (data (scanner failed)))%nat
       /\ c i' = c failed /\ Err i' = Some failure.
Proof.
  split; [exact failed_wf|]. split; [reflexivity|].
  exact (no_read_after_an_error 0 3 failed failure failed_wf eq_refl).
Defined.

End scannerIterReadingExamples.
